(** * Front-end helpers of [js/common.js]: storage wrappers, debounce, throttle

    A shallow embedding of the three pieces of [common.js] that carry state:

    - [setStorage] / [getStorage] / [removeStorage] / [clearStorage], the
      try/catch wrappers around [localStorage] and [JSON];
    - [debounce], a closure over one timer handle;
    - [throttle], a closure over one boolean flag.

    The browser is the environment of that code.  Its storage area is a finite
    map from strings to strings, its console is a list of lines, its timers
    are a list of pending one-shot tasks on a virtual millisecond clock.
    Exceptions are explicit: a computation completes normally or throws. *)

From Stdlib Require Import ZArith Lia Ascii String.
From stdpp Require Import gmap strings list pretty.

Set Warnings "-register-all".
Local Open Scope Z_scope.

(** ** JavaScript values and completions *)

(** The values the storage helpers receive and return.  Equality of two
    trees of this type is what JavaScript calls deep equality: the model has
    no object identity. *)
Inductive JSValue : Type :=
  | JSUndefined
  | JSNull
  | JSBool (b : bool)
  | JSNumber (n : Z)
  | JSString (s : string)
  | JSArray (items : list JSValue)
  | JSObject (fields : list (string * JSValue)).

(** The value of property [key] in a list of fields. *)
Fixpoint field {A : Type} (key : string) (fields : list (string * A)) : option A :=
  match fields with
  | [] => None
  | (k, a) :: rest => if String.eqb key k then Some a else field key rest
  end.

(** Deep equality as test libraries have it: same shape, same leaves, arrays
    compared in order, objects by property name whatever the order. *)
Fixpoint deep_equal (x y : JSValue) {struct x} : bool :=
  match x, y with
  | JSUndefined, JSUndefined => true
  | JSNull, JSNull => true
  | JSBool a, JSBool b => Bool.eqb a b
  | JSNumber a, JSNumber b => a =? b
  | JSString a, JSString b => String.eqb a b
  | JSArray xs, JSArray ys =>
      (fix pairwise (xs ys : list JSValue) : bool :=
         match xs, ys with
         | [], [] => true
         | a :: xs', b :: ys' => deep_equal a b && pairwise xs' ys'
         | _, _ => false
         end) xs ys
  | JSObject fs, JSObject gs =>
      (length fs =? length gs)%nat &&
      (fix every (fs : list (string * JSValue)) : bool :=
         match fs with
         | [] => true
         | (k, a) :: fs' =>
             match field k gs with
             | Some b => deep_equal a b
             | None => false
             end && every fs'
         end) fs
  | _, _ => false
  end.

Inductive JSError : Type :=
  | TypeError
  | SyntaxError
  | QuotaExceededError
  | SecurityError.

(** How a call ends: with a value, or by throwing. *)
Inductive Completion (A : Type) : Type :=
  | Normal (a : A)
  | Throw (e : JSError).
Arguments Normal {A} a.
Arguments Throw {A} e.

(** ** The host: what the browser supplies

    [JSON.stringify] yields a text, [undefined] (for [undefined] itself and
    for functions), or throws (cyclic structures, BigInt).  [JSON.parse]
    yields a value or throws.  Each [localStorage] method may throw instead
    of acting (quota exceeded, access denied); which calls do is up to the
    host, so it is a field here.  The three laws are the facts of the JSON
    grammar the wrappers lean on. *)
Class Host : Type := {
  JSON_stringify : JSValue -> Completion (option string);
  JSON_parse : string -> Completion JSValue;
  setItem_fault : string -> string -> gmap string string -> option JSError;
  getItem_fault : string -> gmap string string -> option JSError;
  removeItem_fault : string -> gmap string string -> option JSError;
  clear_fault : gmap string string -> option JSError;
  JSON_parse_empty : JSON_parse EmptyString = Throw SyntaxError;
  JSON_stringify_null : JSON_stringify JSNull = Normal (Some "null"%string);
  JSON_parse_null : JSON_parse "null" = Normal JSNull
}.

(** One line of [console.error]: the message and the error object. *)
Record LogLine : Type := { log_message : string; log_error : JSError }.

Record Browser : Type := {
  localStorage : gmap string string;
  console : list LogLine
}.

(** ** Computations in the browser: state and exceptions *)

Definition JS (A : Type) : Type := Browser -> Completion A * Browser.

Definition ret {A} (a : A) : JS A := fun w => (Normal a, w).

Definition bind {A B} (m : JS A) (k : A -> JS B) : JS B :=
  fun w =>
    match m w with
    | (Normal a, w') => k a w'
    | (Throw e, w') => (Throw e, w')
    end.

Definition lift {A} (c : Completion A) : JS A := fun w => (c, w).

(** [try { body } catch (error) { handler }] *)
Definition try_catch {A} (body : JS A) (handler : JSError -> JS A) : JS A :=
  fun w =>
    match body w with
    | (Normal a, w') => (Normal a, w')
    | (Throw e, w') => handler e w'
    end.

Notation "'let!' x ':=' m 'in' k" := (bind m (fun x => k))
  (at level 10, x name, m at level 100, k at level 200).
Notation "m ';;' k" := (bind m (fun _ => k))
  (at level 100, k at level 200, right associativity).

Section Storage.
Context `{H : Host}.

(** *** [localStorage] and [console] *)

Definition localStorage_getItem (key : string) : JS (option string) :=
  fun w =>
    match getItem_fault key (localStorage w) with
    | Some e => (Throw e, w)
    | None => (Normal (localStorage w !! key), w)
    end.

Definition localStorage_setItem (key value : string) : JS unit :=
  fun w =>
    match setItem_fault key value (localStorage w) with
    | Some e => (Throw e, w)
    | None =>
        (Normal tt,
         {| localStorage := <[key := value]> (localStorage w);
            console := console w |})
    end.

Definition localStorage_removeItem (key : string) : JS unit :=
  fun w =>
    match removeItem_fault key (localStorage w) with
    | Some e => (Throw e, w)
    | None =>
        (Normal tt,
         {| localStorage := delete key (localStorage w);
            console := console w |})
    end.

Definition localStorage_clear : JS unit :=
  fun w =>
    match clear_fault (localStorage w) with
    | Some e => (Throw e, w)
    | None => (Normal tt, {| localStorage := ∅; console := console w |})
    end.

Definition console_error (message : string) (error : JSError) : JS unit :=
  fun w =>
    (Normal tt,
     {| localStorage := localStorage w;
        console := console w ++ [{| log_message := message;
                                    log_error := error |}] |}).

(** [setItem] takes a DOMString: the [undefined] that [JSON.stringify] may
    return is converted to its name. *)
Definition to_DOMString (text : option string) : string :=
  match text with
  | Some s => s
  | None => "undefined"
  end.

(** [JSON.parse] converts its argument to a string as well; [getItem]
    returns a string or [null]. *)
Definition item_text (item : option string) : string :=
  match item with
  | Some s => s
  | None => "null"
  end.

(** [item ? ... : ...] where [item] is a string or [null]. *)
Definition truthy (item : option string) : bool :=
  match item with
  | Some EmptyString => false
  | Some _ => true
  | None => false
  end.

(** *** The four wrappers *)

Definition setStorage_message (key : string) : string :=
  "Error setting localStorage for key '" ++ key ++ "':".
Definition getStorage_message (key : string) : string :=
  "Error getting localStorage for key '" ++ key ++ "':".
Definition removeStorage_message (key : string) : string :=
  "Error removing localStorage for key '" ++ key ++ "':".
Definition clearStorage_message : string :=
  "Error clearing localStorage:".

(** The [try] blocks on their own. *)
Definition setStorage_try (key : string) (value : JSValue) : JS unit :=
  let! text := lift (JSON_stringify value) in
  localStorage_setItem key (to_DOMString text).

Definition getStorage_try (key : string) : JS JSValue :=
  let! item := localStorage_getItem key in
  if truthy item then lift (JSON_parse (item_text item)) else ret JSNull.

Definition setStorage (key : string) (value : JSValue) : JS JSValue :=
  try_catch (setStorage_try key value)
            (fun error => console_error (setStorage_message key) error) ;;
  ret JSUndefined.

Definition getStorage (key : string) : JS JSValue :=
  try_catch (getStorage_try key)
            (fun error =>
               console_error (getStorage_message key) error ;;
               ret JSNull).

Definition removeStorage (key : string) : JS JSValue :=
  try_catch (localStorage_removeItem key)
            (fun error => console_error (removeStorage_message key) error) ;;
  ret JSUndefined.

Definition clearStorage : JS JSValue :=
  try_catch localStorage_clear
            (fun error => console_error clearStorage_message error) ;;
  ret JSUndefined.

(** What "never throws, a failure is a logged no-op" means for a wrapper
    [op] around the [try] block [attempt]: [op] always completes normally,
    and whenever the block throws, [op] returns [sentinel], leaves the
    storage area as it was and adds one line to the console. *)
Definition degrades {A} (attempt : JS A) (op : JS JSValue)
    (sentinel : JSValue) (message : string) : Prop :=
  forall w, exists v w',
    op w = (Normal v, w') /\
    forall e w1, attempt w = (Throw e, w1) ->
      v = sentinel /\
      localStorage w' = localStorage w /\
      console w' = console w ++ [{| log_message := message; log_error := e |}].

(** The property of [setStorage] as the specification words it: a failure
    forced during the write is swallowed, and reading the key afterwards
    gives [null]. *)
Definition resilience_as_stated (key : string) (value : JSValue)
    (w : Browser) : Prop :=
  (exists e w1, setStorage_try key value w = (Throw e, w1)) ->
  exists w', setStorage key value w = (Normal JSUndefined, w') /\
             fst (getStorage key w') = Normal JSNull.

End Storage.

(** ** Timers: the event loop on a virtual clock

    Time is a number of milliseconds.  [setTimeout] files a one-shot task
    under a fresh handle, due [delay] milliseconds from now (a negative delay
    counts as zero); [clearTimeout] drops the task with the given handle and
    ignores [undefined] and handles that are no longer pending.  When the
    clock is moved to [t], the tasks due at or before [t] run first, the
    earliest first and in the order they were filed when several are due at
    once, each at its own due time.  A callback is data ([Task]) run by
    [run_task], with the closure variables it shares with its wrapper kept in
    [env]. *)
Section EventLoop.
Context {Task Env : Type}.

Record Timer : Type := {
  timer_id : nat;
  timer_due : Z;
  timer_task : Task
}.

Record Loop : Type := {
  clock : Z;
  next_id : nat;
  pending : list Timer;
  env : Env
}.

Definition set_env (e : Env) (l : Loop) : Loop :=
  {| clock := clock l; next_id := next_id l; pending := pending l;
     env := e |}.

Definition setTimeout (task : Task) (delay : Z) (l : Loop) : nat * Loop :=
  (next_id l,
   {| clock := clock l;
      next_id := S (next_id l);
      pending := pending l ++ [{| timer_id := next_id l;
                                  timer_due := clock l + Z.max 0 delay;
                                  timer_task := task |}];
      env := env l |}).

Definition drop_timer (id : nat) (ts : list Timer) : list Timer :=
  filter (fun t => timer_id t <> id) ts.

Definition clearTimeout (handle : option nat) (l : Loop) : Loop :=
  match handle with
  | None => l
  | Some id =>
      {| clock := clock l; next_id := next_id l;
         pending := drop_timer id (pending l); env := env l |}
  end.

(** The pending task that is due first; of two due together, the one filed
    first. *)
Fixpoint earliest (ts : list Timer) : option Timer :=
  match ts with
  | [] => None
  | t :: rest =>
      match earliest rest with
      | Some u => if timer_due u <? timer_due t then Some u else Some t
      | None => Some t
      end
  end.

Definition next_timer (t : Z) (l : Loop) : option Timer :=
  match earliest (pending l) with
  | Some tm => if timer_due tm <=? t then Some tm else None
  | None => None
  end.

Variable run_task : Task -> Loop -> Loop.

(** Take one due task off the list, put the clock at its due time, run it. *)
Definition fire (tm : Timer) (l : Loop) : Loop :=
  run_task (timer_task tm)
    {| clock := Z.max (clock l) (timer_due tm);
       next_id := next_id l;
       pending := drop_timer (timer_id tm) (pending l);
       env := env l |}.

Fixpoint run_timers (fuel : nat) (t : Z) (l : Loop) : Loop :=
  match fuel with
  | O => l
  | S fuel' =>
      match next_timer t l with
      | Some tm => run_timers fuel' t (fire tm l)
      | None => l
      end
  end.

(** Let time pass until [t].  No task of this file files another task from
    inside a callback, so one round per pending task is enough
    ([advance_settles] below). *)
Definition advance (t : Z) (l : Loop) : Loop :=
  let l' := run_timers (length (pending l)) t l in
  {| clock := Z.max (clock l') t; next_id := next_id l';
     pending := pending l'; env := env l' |}.

(** A call arriving at time [t]: the loop first catches up with [t]. *)
Definition arrive (t : Z) (call : Loop -> Loop) (l : Loop) : Loop :=
  call (advance t l).

Fixpoint run_calls {Args : Type} (wrapper : Args -> Loop -> Loop)
    (calls : list (Z * Args)) (l : Loop) : Loop :=
  match calls with
  | [] => l
  | (t, args) :: rest => run_calls wrapper rest (arrive t (wrapper args) l)
  end.

End EventLoop.
Arguments Timer : clear implicits.
Arguments Loop : clear implicits.

(** Calls listed with the times they arrive at, none before [from] and none
    before the one listed ahead of it. *)
Fixpoint chronological {Args : Type} (from : Z) (calls : list (Z * Args)) : Prop :=
  match calls with
  | [] => True
  | (t, _) :: rest => from <= t /\ chronological t rest
  end.

(** ** [debounce] *)
Module Debounce.
Section Debounce.
Context {Args : Type}.

(** The arrow function [later], which captured the arguments of its call. *)
Inductive Task : Type := Later (args : Args).

(** [timeout] is the closure variable.  [func] is the caller's function:
    what it does is its own business, so an execution of it is recorded in
    [func_calls], with its time and arguments, and it is taken to return. *)
Record Env : Type := {
  timeout : option nat;
  func_calls : list (Z * Args)
}.

Definition State : Type := Loop Task Env.

Definition func (args : Args) (l : State) : State :=
  set_env {| timeout := timeout (env l);
             func_calls := func_calls (env l) ++ [(clock l, args)] |} l.

Definition later (args : Args) (l : State) : State :=
  func args (clearTimeout (timeout (env l)) l).

Definition run_task (task : Task) : State -> State :=
  match task with
  | Later args => later args
  end.

Definition executedFunction (wait : Z) (args : Args) (l : State) : State :=
  let l1 := clearTimeout (timeout (env l)) l in
  let (id, l2) := setTimeout (Later args) wait l1 in
  set_env {| timeout := Some id; func_calls := func_calls (env l2) |} l2.

(** The page right after [debounce(func, wait)] was evaluated at [now]:
    [timeout] is still [undefined] and nothing is pending. *)
Definition debounce (now : Z) : State :=
  {| clock := now; next_id := 1%nat; pending := [];
     env := {| timeout := None; func_calls := [] |} |}.

(** The calls arrive, then time passes until [horizon]. *)
Definition run (wait : Z) (calls : list (Z * Args)) (horizon : Z)
    (l : State) : State :=
  advance run_task horizon (run_calls run_task (executedFunction wait) calls l).

(** What a trailing-edge debouncer delivers, told without timers: [armed]
    is the delivery that is waiting (its time and arguments), a call
    replaces it, and it happens if no call comes before its time.  [wait]
    is the delay as [setTimeout] takes it. *)
Definition deliver (armed : option (Z * Args)) (by_time : Z)
    : list (Z * Args) :=
  match armed with
  | Some (due, args) => if due <=? by_time then [(due, args)] else []
  | None => []
  end.




(** What is still waiting once the clock has reached [t]. *)
Definition still_armed (armed : option (Z * Args)) (t : Z)
    : option (Z * Args) :=
  match armed with
  | Some (due, args) => if due <=? t then None else armed
  | None => None
  end.

(** The two shapes the pending list of a page with one debounced wrapper
    takes: empty, or the one timer [timeout] names. *)
Definition shaped (armed : option (Z * Args)) (l : State) : Prop :=
  match armed with
  | None => pending l = []
  | Some (due, args) =>
      exists id,
        pending l = [{| timer_id := id; timer_due := due;
                        timer_task := Later args |}] /\
        timeout (env l) = Some id /\
        clock l <= due
  end.

End Debounce.
Arguments Task : clear implicits.
Arguments Env : clear implicits.
Arguments State : clear implicits.
End Debounce.

(** ** [throttle] *)
Module Throttle.
Section Throttle.
Context {Args : Type}.

(** The arrow function [() => (inThrottle = false)]. *)
Inductive Task : Type := Reopen.

(** [inThrottle] is the closure variable, [undefined] until first set.
    As for [debounce], an execution of the caller's [func] is recorded in
    [func_calls] and taken to return. *)
Record Env : Type := {
  inThrottle : option bool;
  func_calls : list (Z * Args)
}.

Definition State : Type := Loop Task Env.

Definition func (args : Args) (l : State) : State :=
  set_env {| inThrottle := inThrottle (env l);
             func_calls := func_calls (env l) ++ [(clock l, args)] |} l.

Definition set_inThrottle (b : bool) (l : State) : State :=
  set_env {| inThrottle := Some b; func_calls := func_calls (env l) |} l.

(** [!inThrottle] *)
Definition gate_open (l : State) : bool :=
  match inThrottle (env l) with
  | Some true => false
  | Some false | None => true
  end.

Definition run_task (task : Task) : State -> State :=
  match task with
  | Reopen => set_inThrottle false
  end.

Definition wrapper (limit : Z) (args : Args) (l : State) : State :=
  if gate_open l then
    let l1 := func args l in
    let l2 := set_inThrottle true l1 in
    snd (setTimeout Reopen limit l2)
  else l.

Definition throttle (now : Z) : State :=
  {| clock := now; next_id := 1%nat; pending := [];
     env := {| inThrottle := None; func_calls := [] |} |}.

Definition run (limit : Z) (calls : list (Z * Args)) (horizon : Z)
    (l : State) : State :=
  advance run_task horizon (run_calls run_task (wrapper limit) calls l).

(** What a leading-edge throttle executes, told without timers: a call
    executes unless the gate is closed, and then closes the gate until
    [limit] later; [closed_until] is the time the gate reopens. *)
Fixpoint leading_edge (limit : Z) (closed_until : option Z)
    (calls : list (Z * Args)) : list (Z * Args) :=
  match calls with
  | [] => []
  | (t, args) :: rest =>
      match closed_until with
      | Some due =>
          if due <=? t
          then (t, args) :: leading_edge limit (Some (t + limit)) rest
          else leading_edge limit closed_until rest
      | None => (t, args) :: leading_edge limit (Some (t + limit)) rest
      end
  end.



(** Whether a call arriving at [t] finds the gate open. *)
Definition open_at (closed_until : option Z) (t : Z) : bool :=
  match closed_until with
  | Some due => due <=? t
  | None => true
  end.

(** The two shapes of a page with one throttled wrapper: gate open and
    nothing pending, or gate closed and the one timer that reopens it,
    filed at the last execution. *)
Definition shaped (limit : Z) (closed_until : option Z) (l : State) : Prop :=
  match closed_until with
  | None => pending l = [] /\ gate_open l = true /\ func_calls (env l) = []
  | Some due =>
      exists e args,
        last (func_calls (env l)) = Some (e, args) /\
        due = e + Z.max 0 limit /\
        e <= clock l /\
        ((pending l = [] /\ gate_open l = true /\ due <= clock l) \/
         (exists id,
            pending l = [{| timer_id := id; timer_due := due;
                            timer_task := Reopen |}] /\
            gate_open l = false))
  end.

End Throttle.
Arguments Task : clear implicits.
Arguments Env : clear implicits.
Arguments State : clear implicits.
End Throttle.

(** ** A reference host

    A host to run the wrappers on: JSON for the values of [JSValue], and a
    storage area that refuses a write once the characters it holds would
    exceed a quota.  [JSON.stringify] drops object fields whose value is
    [undefined] and prints [undefined] array items as [null]. *)
Module RefHost.
Local Open Scope string_scope.

Definition quote : ascii := "034"%char.
Definition backslash : ascii := "092"%char.

Fixpoint escape (s : string) : string :=
  match s with
  | EmptyString => EmptyString
  | String c rest =>
      if Ascii.eqb c quote || Ascii.eqb c backslash
      then String backslash (String c (escape rest))
      else String c (escape rest)
  end.

Definition quoted (s : string) : string :=
  String quote (escape s ++ String quote EmptyString).

Definition join (sep : string) (parts : list string) : string :=
  match parts with
  | [] => EmptyString
  | p :: rest => fold_left (fun acc q => acc ++ sep ++ q) rest p
  end.

Fixpoint print (v : JSValue) : option string :=
  match v with
  | JSUndefined => None
  | JSNull => Some "null"
  | JSBool true => Some "true"
  | JSBool false => Some "false"
  | JSNumber n => Some (pretty n)
  | JSString s => Some (quoted s)
  | JSArray items =>
      let texts :=
        (fix each (xs : list JSValue) : list string :=
           match xs with
           | [] => []
           | x :: rest => default "null" (print x) :: each rest
           end) items in
      Some ("[" ++ join "," texts ++ "]")
  | JSObject fields =>
      let texts :=
        (fix each (fs : list (string * JSValue)) : list string :=
           match fs with
           | [] => []
           | (k, x) :: rest =>
               match print x with
               | Some t => (quoted k ++ ":" ++ t) :: each rest
               | None => each rest
               end
           end) fields in
      Some ("{" ++ join "," texts ++ "}")
  end.

Definition is_space (c : ascii) : bool :=
  Ascii.eqb c " " || Ascii.eqb c "009" || Ascii.eqb c "010" || Ascii.eqb c "013".

Fixpoint skip_ws (s : string) : string :=
  match s with
  | String c rest => if is_space c then skip_ws rest else s
  | EmptyString => s
  end.

Fixpoint strip_prefix (p s : string) : option string :=
  match p, s with
  | EmptyString, _ => Some s
  | String a p', String b s' => if Ascii.eqb a b then strip_prefix p' s' else None
  | String _ _, EmptyString => None
  end.

Definition digit_of (c : ascii) : option Z :=
  let n := Z.of_N (Ascii.N_of_ascii c) in
  if ((48 <=? n) && (n <=? 57))%Z then Some (n - 48) else None.

Fixpoint read_digits (acc : Z) (s : string) : Z * string :=
  match s with
  | String c rest =>
      match digit_of c with
      | Some d => read_digits (10 * acc + d) rest
      | None => (acc, s)
      end
  | EmptyString => (acc, s)
  end.

(** An integer literal: digits, without a leading zero before more digits. *)
Definition read_natural (s : string) : option (Z * string) :=
  match s with
  | String c rest =>
      match digit_of c with
      | Some 0 =>
          match rest with
          | String c' _ =>
              match digit_of c' with
              | Some _ => None
              | None => Some (0, rest)
              end
          | EmptyString => Some (0, rest)
          end
      | Some d => Some (read_digits d rest)
      | None => None
      end
  | EmptyString => None
  end.

(** The characters of a string literal after its opening quote. *)
Fixpoint read_string (s : string) : option (string * string) :=
  match s with
  | EmptyString => None
  | String c rest =>
      if Ascii.eqb c quote then Some (EmptyString, rest)
      else if Ascii.eqb c backslash then
        match rest with
        | String e rest' =>
            if Ascii.eqb e quote || Ascii.eqb e backslash then
              match read_string rest' with
              | Some (body, tail) => Some (String e body, tail)
              | None => None
              end
            else None
        | EmptyString => None
        end
      else
        match read_string rest with
        | Some (body, tail) => Some (String c body, tail)
        | None => None
        end
  end.

Fixpoint read_value (fuel : nat) (s : string) : option (JSValue * string) :=
  match fuel with
  | O => None
  | S fuel' =>
      match skip_ws s with
      | EmptyString => None
      | String c rest as text =>
          if Ascii.eqb c "[" then
            match skip_ws rest with
            | String "]" tail => Some (JSArray [], tail)
            | _ =>
                match read_items fuel' rest with
                | Some (items, tail) => Some (JSArray items, tail)
                | None => None
                end
            end
          else if Ascii.eqb c "{" then
            match skip_ws rest with
            | String "}" tail => Some (JSObject [], tail)
            | _ =>
                match read_fields fuel' rest with
                | Some (fields, tail) => Some (JSObject fields, tail)
                | None => None
                end
            end
          else if Ascii.eqb c quote then
            match read_string rest with
            | Some (body, tail) => Some (JSString body, tail)
            | None => None
            end
          else if Ascii.eqb c "-" then
            match read_natural rest with
            | Some (n, tail) => Some (JSNumber (- n), tail)
            | None => None
            end
          else
            match strip_prefix "null" text, strip_prefix "true" text,
                  strip_prefix "false" text with
            | Some tail, _, _ => Some (JSNull, tail)
            | _, Some tail, _ => Some (JSBool true, tail)
            | _, _, Some tail => Some (JSBool false, tail)
            | _, _, _ =>
                match read_natural text with
                | Some (n, tail) => Some (JSNumber n, tail)
                | None => None
                end
            end
      end
  end
with read_items (fuel : nat) (s : string) : option (list JSValue * string) :=
  match fuel with
  | O => None
  | S fuel' =>
      match read_value fuel' s with
      | Some (x, tail) =>
          match skip_ws tail with
          | String "," tail' =>
              match read_items fuel' tail' with
              | Some (xs, tail'') => Some (x :: xs, tail'')
              | None => None
              end
          | String "]" tail' => Some ([x], tail')
          | _ => None
          end
      | None => None
      end
  end
with read_fields (fuel : nat) (s : string)
    : option (list (string * JSValue) * string) :=
  match fuel with
  | O => None
  | S fuel' =>
      match skip_ws s with
      | String c rest =>
          if Ascii.eqb c quote then
            match read_string rest with
            | Some (k, tail) =>
                match skip_ws tail with
                | String ":" tail' =>
                    match read_value fuel' tail' with
                    | Some (x, tail'') =>
                        match skip_ws tail'' with
                        | String "," more =>
                            match read_fields fuel' more with
                            | Some (fs, tail3) => Some ((k, x) :: fs, tail3)
                            | None => None
                            end
                        | String "}" tail3 => Some ([(k, x)], tail3)
                        | _ => None
                        end
                    | None => None
                    end
                | _ => None
                end
            | None => None
            end
          else None
      | EmptyString => None
      end
  end.

Definition parse (text : string) : Completion JSValue :=
  match read_value (S (String.length text)) text with
  | Some (v, tail) =>
      match skip_ws tail with
      | EmptyString => Normal v
      | String _ _ => Throw SyntaxError
      end
  | None => Throw SyntaxError
  end.

(** Characters held by the storage area, keys and values together. *)
Definition usage (area : gmap string string) : nat :=
  map_fold (fun k v total => (String.length k + String.length v + total)%nat)
           0%nat area.

Definition over_quota (quota : nat) (key value : string)
    (area : gmap string string) : option JSError :=
  if (quota <? usage (<[key := value]> area))%nat
  then Some QuotaExceededError
  else None.

Definition host (quota : nat) : Host :=
  {| JSON_stringify := fun v => Normal (print v);
     JSON_parse := parse;
     setItem_fault := over_quota quota;
     getItem_fault := fun _ _ => None;
     removeItem_fault := fun _ _ => None;
     clear_fault := fun _ => None;
     JSON_parse_empty := eq_refl;
     JSON_stringify_null := eq_refl;
     JSON_parse_null := eq_refl |}.

Definition browser_with (entries : list (string * string)) : Browser :=
  {| localStorage := list_to_map entries; console := [] |}.

Definition empty_browser : Browser := browser_with [].

(** The object [{a: 1}]. *)
Definition a1 : JSValue := JSObject [("a", JSNumber 1)].

(** A roomy storage area, and one that is all but full. *)
Definition roomy : Host := host 5000.
Definition cramped : Host := host 4.

(** Argument lists for calls of a wrapper. *)
Definition a : list JSValue := [JSString "a"].
Definition b : list JSValue := [JSString "b"].
Definition c : list JSValue := [JSString "c"].

End RefHost.


(** ** String helpers

    A string is the sequence of its code units, here those below 256; on
    such strings [length], [substring], [trim] and the class [\s] are what
    they are in JavaScript. *)
Section Strings.
Local Open Scope string_scope.

Definition js_length (s : string) : Z := Z.of_nat (String.length s).

(** An index as [substring] reads it: below zero is zero, past the end is
    the end. *)
Definition clamp_index (s : string) (i : Z) : nat :=
  Z.to_nat (Z.min (Z.max 0 i) (js_length s)).

(** [s.substring(from, to)]: the ends are clamped, and swapped when they
    come in the wrong order. *)
Definition js_substring (s : string) (from to : Z) : string :=
  let a := clamp_index s from in
  let b := clamp_index s to in
  String.substring (Nat.min a b) (Nat.max a b - Nat.min a b) s.

Definition truncateString (str : string) (maxLength : Z) : string :=
  if (js_length str <=? maxLength)%Z then str
  else js_substring str 0 (maxLength - 3) ++ "...".

(** White space and line terminators, the class [\s] and what [trim]
    removes: tab, line feed, vertical tab, form feed, carriage return, space
    and no-break space. *)
Definition is_whitespace (c : ascii) : bool :=
  match Ascii.N_of_ascii c with
  | 9%N | 10%N | 11%N | 12%N | 13%N | 32%N | 160%N => true
  | _ => false
  end.

Fixpoint trimStart (s : string) : string :=
  match s with
  | String c rest => if is_whitespace c then trimStart rest else s
  | EmptyString => EmptyString
  end.

Fixpoint trimEnd (s : string) : string :=
  match s with
  | EmptyString => EmptyString
  | String c rest =>
      match trimEnd rest with
      | EmptyString => if is_whitespace c then EmptyString else String c EmptyString
      | kept => String c kept
      end
  end.

Definition trim (s : string) : string := trimEnd (trimStart s).

(** [s.replace(/\s+/g, ' ')]: every maximal run of white space becomes one
    space.  [in_run] tells that the run the next character may continue has
    been replaced already. *)
Fixpoint replace_whitespace_runs (in_run : bool) (s : string) : string :=
  match s with
  | EmptyString => EmptyString
  | String c rest =>
      if is_whitespace c then
        if in_run then replace_whitespace_runs true rest
        else String " " (replace_whitespace_runs true rest)
      else String c (replace_whitespace_runs false rest)
  end.

Definition normalizeString (str : string) : string :=
  replace_whitespace_runs false (trim str).

(** The characters of a string that are not white space. *)
Fixpoint visible (s : string) : string :=
  match s with
  | EmptyString => EmptyString
  | String c rest => if is_whitespace c then visible rest else String c (visible rest)
  end.

(** [tidy after_space s]: in [s] every white space character is a space,
    no space follows a space (nor comes first when [after_space]), and the
    last character is not a space. *)
Fixpoint tidy (after_space : bool) (s : string) : bool :=
  match s with
  | EmptyString => negb after_space
  | String c rest =>
      if is_whitespace c
      then Ascii.eqb c " " && negb after_space && tidy true rest
      else tidy false rest
  end.

End Strings.

(** ** Array helpers *)

(** [getUnique]: [new Set(arr)] keeps its elements in the order they were
    first added and ignores the adding of one it holds; spreading it lists
    them in that order.  The elements are values that [Set] compares by
    what they are (numbers, strings, booleans), not objects compared by
    identity. *)
Section Unique.
Context {A : Type} `{EqDecision A}.

Definition Set_add (set : list A) (x : A) : list A :=
  if decide (x ∈ set) then set else set ++ [x].

Definition new_Set (arr : list A) : list A := fold_left Set_add arr [].

Definition getUnique (arr : list A) : list A := new_Set arr.

End Unique.

Definition is_array (v : JSValue) : bool :=
  match v with
  | JSArray _ => true
  | _ => false
  end.

(** What [flat(Infinity)] puts in the result for one element: the element
    itself, or, for an array, what it puts for each of its items. *)
Fixpoint flat_deep (v : JSValue) : list JSValue :=
  match v with
  | JSArray items =>
      (fix each (xs : list JSValue) : list JSValue :=
         match xs with
         | [] => []
         | x :: rest => flat_deep x ++ each rest
         end) items
  | _ => [v]
  end.

Definition flattenArray (arr : list JSValue) : list JSValue :=
  flat_deep (JSArray arr).

(** ** Regular expressions and the validators

    The patterns of the validators are anchored at both ends and use only
    classes, sequence and [+], so whether [test] finds a match is whether the
    whole string belongs to the language of the pattern.  [matches] decides
    that by derivatives. *)
Section Validation.
Local Open Scope string_scope.

Inductive Regex : Type :=
  | Never
  | Empty
  | Class (p : ascii -> bool)
  | Seq (r1 r2 : Regex)
  | Alt (r1 r2 : Regex)
  | Star (r : Regex).

(** [r+] *)
Definition Plus (r : Regex) : Regex := Seq r (Star r).

Fixpoint nullable (r : Regex) : bool :=
  match r with
  | Never => false
  | Empty => true
  | Class _ => false
  | Seq r1 r2 => nullable r1 && nullable r2
  | Alt r1 r2 => nullable r1 || nullable r2
  | Star _ => true
  end.

Fixpoint derive (c : ascii) (r : Regex) : Regex :=
  match r with
  | Never => Never
  | Empty => Never
  | Class p => if p c then Empty else Never
  | Seq r1 r2 =>
      Alt (Seq (derive c r1) r2) (if nullable r1 then derive c r2 else Never)
  | Alt r1 r2 => Alt (derive c r1) (derive c r2)
  | Star r1 => Seq (derive c r1) (Star r1)
  end.

Fixpoint matches (r : Regex) (s : string) : bool :=
  match s with
  | EmptyString => nullable r
  | String c rest => matches (derive c r) rest
  end.

(** The strings of a pattern. *)
Inductive denotes : Regex -> string -> Prop :=
  | denotes_empty : denotes Empty EmptyString
  | denotes_class p c : p c = true -> denotes (Class p) (String c EmptyString)
  | denotes_seq r1 r2 s1 s2 :
      denotes r1 s1 -> denotes r2 s2 -> denotes (Seq r1 r2) (s1 ++ s2)
  | denotes_alt_l r1 r2 s : denotes r1 s -> denotes (Alt r1 r2) s
  | denotes_alt_r r1 r2 s : denotes r2 s -> denotes (Alt r1 r2) s
  | denotes_star_nil r : denotes (Star r) EmptyString
  | denotes_star_more r s1 s2 :
      denotes r s1 -> denotes (Star r) s2 -> denotes (Star r) (s1 ++ s2).

(** Every character of [s] passes [p]. *)
Fixpoint every (p : ascii -> bool) (s : string) : bool :=
  match s with
  | EmptyString => true
  | String c rest => p c && every p rest
  end.

(** How many times [c] occurs in [s]. *)
Fixpoint occurrences (c : ascii) (s : string) : nat :=
  match s with
  | EmptyString => O
  | String x rest => ((if Ascii.eqb x c then 1 else 0) + occurrences c rest)%nat
  end.

(** [[^\s@]] *)
Definition email_char (c : ascii) : bool :=
  negb (is_whitespace c || Ascii.eqb c "@").

(** [/^[^\s@]+@[^\s@]+\.[^\s@]+$/] *)
Definition emailRegex : Regex :=
  Seq (Plus (Class email_char))
    (Seq (Class (Ascii.eqb "@"))
       (Seq (Plus (Class email_char))
          (Seq (Class (Ascii.eqb "."))
             (Plus (Class email_char))))).

Definition isValidEmail (email : string) : bool := matches emailRegex email.

(** [\d] *)
Definition is_digit (c : ascii) : bool :=
  let n := Ascii.N_of_ascii c in ((48 <=? n) && (n <=? 57))%N.

(** [[\d\s\-\+\(\)]] *)
Definition phone_char (c : ascii) : bool :=
  is_digit c || is_whitespace c || Ascii.eqb c "-" || Ascii.eqb c "+"
  || Ascii.eqb c "(" || Ascii.eqb c ")".

(** [/^[\d\s\-\+\(\)]+$/] *)
Definition phoneRegex : Regex := Plus (Class phone_char).

(** [phone.replace(/\D/g, '')] *)
Fixpoint digits_only (s : string) : string :=
  match s with
  | EmptyString => EmptyString
  | String c rest => if is_digit c then String c (digits_only rest) else digits_only rest
  end.

Definition isValidPhone (phone : string) : bool :=
  matches phoneRegex phone && (10 <=? js_length (digits_only phone))%Z.

End Validation.

(** ** [groupBy]

    The accumulator of the [reduce] is an object: its own properties are
    the groups made so far, and behind them stand the members every object
    inherits ([constructor], [toString], ...).  [key_of obj] is the
    property name that [obj[property]] stands for when it indexes the
    accumulator; [inherited] tells the inherited names.

    Reading [acc[key]] gives the own group if there is one (an array, which
    is truthy) and else the inherited member if there is one (a function or
    an object: truthy, and without a [push]), and else [undefined]. *)
Section GroupBy.
Context {Obj : Type}.
Variable key_of : Obj -> string.
Variable inherited : string -> bool.

Definition groupBy_step (acc : gmap string (list Obj)) (obj : Obj)
    : Completion (gmap string (list Obj)) :=
  let key := key_of obj in
  match acc !! key with
  | Some group => Normal (<[key := group ++ [obj]]> acc)
  | None =>
      if inherited key then Throw TypeError
      else Normal (<[key := [obj]]> acc)
  end.

(** [arr.reduce(callback, acc)] *)
Fixpoint reduce_groups (arr : list Obj) (acc : gmap string (list Obj))
    : Completion (gmap string (list Obj)) :=
  match arr with
  | [] => Normal acc
  | obj :: rest =>
      match groupBy_step acc obj with
      | Normal acc' => reduce_groups rest acc'
      | Throw e => Throw e
      end
  end.

Definition groupBy (arr : list Obj) : Completion (gmap string (list Obj)) :=
  reduce_groups arr ∅.

(** The elements of [arr] whose key is [key], in their order; no group when
    there is none. *)
Definition group_of (arr : list Obj) (key : string) : option (list Obj) :=
  match filter (fun obj => key_of obj = key) arr with
  | [] => None
  | group => Some group
  end.

End GroupBy.

(** The names an object inherits from [Object.prototype]. *)
Definition Object_prototype_names : list string :=
  ["constructor"; "__defineGetter__"; "__defineSetter__"; "hasOwnProperty";
   "__lookupGetter__"; "__lookupSetter__"; "isPrototypeOf";
   "propertyIsEnumerable"; "toString"; "valueOf"; "__proto__";
   "toLocaleString"]%string.

Definition is_inherited (name : string) : bool :=
  bool_decide (name ∈ Object_prototype_names).

(** ** [isEmpty] *)

(** [typeof value] *)
Definition typeof (v : JSValue) : string :=
  match v with
  | JSUndefined => "undefined"
  | JSNull => "object"
  | JSBool _ => "boolean"
  | JSNumber _ => "number"
  | JSString _ => "string"
  | JSArray _ => "object"
  | JSObject _ => "object"
  end.

(** [Object.keys(value).length]: the indices of an array, the names of an
    object, the indices of a string, nothing for a number or a boolean;
    [null] and [undefined] make it throw. *)
Definition Object_keys_length (v : JSValue) : Completion nat :=
  match v with
  | JSUndefined | JSNull => Throw TypeError
  | JSBool _ | JSNumber _ => Normal O
  | JSString s => Normal (String.length s)
  | JSArray items => Normal (length items)
  | JSObject fields => Normal (length fields)
  end.

(** [a || b], with [b] evaluated only when [a] is false. *)
Definition or_else (a : bool) (b : Completion bool) : Completion bool :=
  if a then Normal true else b.

Definition strict_equal_string (v : JSValue) (s : string) : bool :=
  match v with
  | JSString x => String.eqb x s
  | _ => false
  end.

Definition isEmpty (value : JSValue) : Completion bool :=
  or_else (match value with JSNull => true | _ => false end)
    (or_else (match value with JSUndefined => true | _ => false end)
       (or_else (strict_equal_string value EmptyString)
          (or_else
             (is_array value &&
              match value with
              | JSArray items => (length items =? 0)%nat
              | _ => false
              end)
             (if String.eqb (typeof value) "object" then
                match Object_keys_length value with
                | Normal n => Normal (n =? 0)%nat
                | Throw e => Throw e
                end
              else Normal false)))).

(** ** [formatNumber]

    [num.toString().replace(/\B(?=(\d{3})+(?!\d))/g, ',')]: a comma goes in at
    every position that is not a word boundary and from which a positive
    number of groups of three digits runs up to a character that is not a
    digit, or to the end. *)
Section FormatNumber.
Local Open Scope string_scope.

(** [\w] *)
Definition is_word (c : ascii) : bool :=
  let n := Ascii.N_of_ascii c in
  (is_digit c || ((65 <=? n) && (n <=? 90)) || ((97 <=? n) && (n <=? 122))
   || (n =? 95))%N.

Definition starts_with (p : ascii -> bool) (s : string) : bool :=
  match s with
  | String c _ => p c
  | EmptyString => false
  end.

(** [(\d{3})+(?!\d)] at the head of [s]. *)
Fixpoint three_digit_groups (s : string) : bool :=
  match s with
  | String a (String b (String c rest)) =>
      is_digit a && is_digit b && is_digit c &&
      (negb (starts_with is_digit rest) || three_digit_groups rest)
  | _ => false
  end.

(** [\B] between the character [prev] (if any) and the head of [s]. *)
Definition not_word_boundary (prev : option ascii) (s : string) : bool :=
  Bool.eqb (match prev with Some c => is_word c | None => false end)
           (starts_with is_word s).

(** The replacement, going through the positions of the text; [prev] is the
    character before the position. *)
Fixpoint insert_commas (prev : option ascii) (s : string) : string :=
  let comma :=
    if not_word_boundary prev s && three_digit_groups s then "," else "" in
  match s with
  | EmptyString => comma
  | String c rest => comma ++ String c (insert_commas (Some c) rest)
  end.

Definition formatNumber (num : Z) : string := insert_commas None (pretty num).


(** A comma and three digits, any number of times. *)
Fixpoint comma_groups (s : string) : bool :=
  match s with
  | EmptyString => true
  | String k (String a (String b (String c rest))) =>
      Ascii.eqb k "," && is_digit a && is_digit b && is_digit c
      && comma_groups rest
  | _ => false
  end.

(** One to three digits, then groups of a comma and three digits. *)
Definition well_grouped (s : string) : bool :=
  match s with
  | String a rest =>
      is_digit a &&
      (comma_groups rest ||
       match rest with
       | String b rest2 =>
           is_digit b &&
           (comma_groups rest2 ||
            match rest2 with
            | String c rest3 => is_digit c && comma_groups rest3
            | EmptyString => false
            end)
       | EmptyString => false
       end)
  | EmptyString => false
  end.

End FormatNumber.

(** ** [containsIgnoreCase] *)
Section Contains.
Local Open Scope string_scope.

(** [toLowerCase] on one code unit below 256: the capital letters of ASCII
    and of Latin-1 (all of 192 to 222 but the multiplication sign) move up
    by 32. *)
Definition toLowerCase_char (c : ascii) : ascii :=
  let n := Ascii.N_of_ascii c in
  if (((65 <=? n) && (n <=? 90))
      || ((192 <=? n) && (n <=? 222) && negb (n =? 215)))%N
  then Ascii.ascii_of_N (n + 32)
  else c.

Fixpoint toLowerCase (s : string) : string :=
  match s with
  | EmptyString => EmptyString
  | String c rest => String (toLowerCase_char c) (toLowerCase rest)
  end.

(** [s.startsWith(v)] *)
Fixpoint startsWith (s v : string) {struct v} : bool :=
  match v, s with
  | EmptyString, _ => true
  | String a v', String b s' => Ascii.eqb a b && startsWith s' v'
  | String _ _, EmptyString => false
  end.

(** [s.includes(v)]: [v] starts at some position of [s]. *)
Fixpoint includes (s v : string) : bool :=
  startsWith s v ||
  match s with
  | EmptyString => false
  | String _ rest => includes rest v
  end.

Definition containsIgnoreCase (str value : string) : bool :=
  includes (toLowerCase str) (toLowerCase value).

End Contains.

(** * Properties of the storage wrappers *)

Section StorageFacts.
Context `{H : Host}.

Lemma setStorage_try_throw key value w e w1 :
  setStorage_try key value w = (Throw e, w1) -> w1 = w.
Proof.
  unfold setStorage_try, bind, lift, localStorage_setItem.
  destruct (JSON_stringify value) as [text|e0]; [|congruence].
  destruct (setItem_fault _ _ _); congruence.
Qed.

Lemma getStorage_try_throw key w e w1 :
  getStorage_try key w = (Throw e, w1) -> w1 = w.
Proof.
  unfold getStorage_try, bind, lift, ret, localStorage_getItem.
  destruct (getItem_fault _ _); [congruence|].
  destruct (truthy _); [|congruence].
  destruct (JSON_parse _); congruence.
Qed.

Lemma removeItem_throw key w e w1 :
  localStorage_removeItem key w = (Throw e, w1) -> w1 = w.
Proof.
  unfold localStorage_removeItem.
  destruct (removeItem_fault _ _); congruence.
Qed.

Lemma clear_throw w e w1 :
  localStorage_clear w = (Throw e, w1) -> w1 = w.
Proof.
  unfold localStorage_clear. destruct (clear_fault _); congruence.
Qed.

(** A wrapper of the shape [try { attempt } catch { console.error }],
    returning [undefined], degrades as soon as a throwing [attempt] leaves
    the browser alone. *)
Lemma try_log_degrades (attempt : JS unit) (message : string) :
  (forall w e w1, attempt w = (Throw e, w1) -> w1 = w) ->
  degrades attempt
    (try_catch attempt (fun error => console_error message error) ;;
     ret JSUndefined)
    JSUndefined message.
Proof.
  intros Hkeep w. unfold bind, try_catch, ret, console_error.
  destruct (attempt w) as [[a|e] w1] eqn:E.
  - eexists _, _. split; [reflexivity|]. intros e' w2 Heq. discriminate.
  - eexists _, _. split; [reflexivity|]. intros e' w2 Heq.
    rewrite (Hkeep _ _ _ E). injection Heq as -> _. auto.
Qed.

(** The result of [getStorage] is read off the storage area alone. *)
Lemma getStorage_result key w :
  fst (getStorage key w) =
    match getItem_fault key (localStorage w) with
    | Some _ => Normal JSNull
    | None =>
        if truthy (localStorage w !! key) then
          match JSON_parse (item_text (localStorage w !! key)) with
          | Normal v => Normal v
          | Throw _ => Normal JSNull
          end
        else Normal JSNull
    end.
Proof.
  unfold getStorage, getStorage_try, try_catch, bind, lift, ret,
    localStorage_getItem, console_error.
  destruct (getItem_fault _ _); [reflexivity|].
  destruct (truthy _); [|reflexivity].
  destruct (JSON_parse _); reflexivity.
Qed.

Lemma setStorage_result key value w :
  setStorage key value w =
    match setStorage_try key value w with
    | (Normal _, w') => (Normal JSUndefined, w')
    | (Throw e, w') =>
        (Normal JSUndefined,
         {| localStorage := localStorage w';
            console := console w' ++ [{| log_message := setStorage_message key;
                                         log_error := e |}] |})
    end.
Proof.
  unfold setStorage, try_catch, bind, ret, console_error.
  destruct (setStorage_try key value w) as [[[]|e] w']; reflexivity.
Qed.

Lemma getStorage_absent key w :
  localStorage w !! key = None -> fst (getStorage key w) = Normal JSNull.
Proof.
  intros Hmiss. rewrite getStorage_result, Hmiss.
  destruct (getItem_fault _ _); reflexivity.
Qed.

(** C4.  No cache operation throws to its caller, whatever the key, the
    value and the host; when the storage call or the (de)serialization
    inside it fails, the operation leaves the storage area unchanged, logs
    one diagnostic line, and returns what it returns anyway: [undefined]
    for [set], [remove] and [clear] (so [set] reports neither success nor
    failure), the [null] sentinel for [get]. *)
Theorem cache_never_throws (key : string) (value : JSValue) :
  degrades (setStorage_try key value) (setStorage key value)
           JSUndefined (setStorage_message key) /\
  degrades (getStorage_try key) (getStorage key)
           JSNull (getStorage_message key) /\
  degrades (localStorage_removeItem key) (removeStorage key)
           JSUndefined (removeStorage_message key) /\
  degrades localStorage_clear clearStorage
           JSUndefined clearStorage_message /\
  (forall w, fst (setStorage key value w) = Normal JSUndefined) /\
  (forall w, fst (removeStorage key w) = Normal JSUndefined) /\
  (forall w, fst (clearStorage w) = Normal JSUndefined).
Proof.
  split; [|split; [|split; [|split; [|split; [|split]]]]].
  - apply try_log_degrades. intros w e w1. apply setStorage_try_throw.
  - intros w. unfold getStorage, try_catch, bind, ret, console_error.
    destruct (getStorage_try key w) as [[v|e] w1] eqn:E.
    + eexists _, _. split; [reflexivity|]. discriminate.
    + eexists _, _. split; [reflexivity|]. intros e' w2 Heq.
      rewrite (getStorage_try_throw _ _ _ _ E). injection Heq as -> _. auto.
  - apply try_log_degrades. intros w e w1. apply removeItem_throw.
  - apply try_log_degrades. intros w e w1. apply clear_throw.
  - intros w. rewrite setStorage_result.
    destruct (setStorage_try key value w) as [[[]|e] w']; reflexivity.
  - intros w. unfold removeStorage, try_catch, bind, ret, console_error.
    destruct (localStorage_removeItem key w) as [[[]|e] w']; reflexivity.
  - intros w. unfold clearStorage, try_catch, bind, ret, console_error.
    destruct (localStorage_clear w) as [[[]|e] w']; reflexivity.
Qed.

(** C5.  [getStorage] returns [null] for a key with no entry, and the same
    [null], completing normally, for a key whose stored text [JSON.parse]
    rejects. *)
Theorem getStorage_miss_or_corrupt (key : string) (w : Browser) :
  localStorage w !! key = None \/
  (exists text e, localStorage w !! key = Some text /\
                  JSON_parse text = Throw e) ->
  fst (getStorage key w) = Normal JSNull.
Proof.
  intros [Hmiss | (text & e & Htext & Hparse)].
  - exact (getStorage_absent _ _ Hmiss).
  - rewrite getStorage_result, Htext.
    destruct (getItem_fault _ _); [reflexivity|].
    destruct (truthy (Some text)); [|reflexivity].
    simpl. rewrite Hparse. reflexivity.
Qed.

(** The storage area after a write that went through. *)
Lemma setStorage_stored key value text w :
  JSON_stringify value = Normal text ->
  setItem_fault key (to_DOMString text) (localStorage w) = None ->
  localStorage (snd (setStorage key value w)) =
    <[key := to_DOMString text]> (localStorage w).
Proof.
  intros Hs Hw. rewrite setStorage_result.
  unfold setStorage_try, bind, lift, localStorage_setItem.
  rewrite Hs, Hw. reflexivity.
Qed.

(** A text that parses is not the empty text, so it passes the [item ?]
    test. *)
Lemma parsed_text_truthy text v :
  JSON_parse text = Normal v -> truthy (Some text) = true.
Proof.
  destruct text; [|reflexivity].
  rewrite JSON_parse_empty. discriminate.
Qed.

(** C3.  Round trip.  Take a value that serializes to [text], from which
    [JSON.parse] rebuilds a deep-equal value, and a storage area that
    accepts the write and the read.  Then [getStorage key] after
    [setStorage key value] returns a value deep-equal to [value]. *)
Theorem cache_round_trip (key : string) (value value' : JSValue)
    (text : string) (w : Browser) :
  JSON_stringify value = Normal (Some text) ->
  JSON_parse text = Normal value' ->
  deep_equal value value' = true ->
  setItem_fault key text (localStorage w) = None ->
  getItem_fault key (<[key := text]> (localStorage w)) = None ->
  exists r, fst (getStorage key (snd (setStorage key value w))) = Normal r /\
            deep_equal value r = true.
Proof.
  intros Hs Hp Heq Hset Hget. exists value'. split; [|exact Heq].
  rewrite getStorage_result, (setStorage_stored _ _ _ _ Hs Hset). simpl.
  rewrite Hget, lookup_insert_eq, (parsed_text_truthy _ _ Hp). simpl.
  rewrite Hp. reflexivity.
Qed.

(** C6, as the code has it.  When the write inside [setStorage] throws,
    [setStorage] still completes normally and the storage area is what it
    was; reading the key afterwards gives what reading it before gave, which
    is [null] when the key had no entry. *)
Theorem failed_set_keeps_entry (key : string) (value : JSValue)
    (w w1 : Browser) (e : JSError) :
  setStorage_try key value w = (Throw e, w1) ->
  exists w', setStorage key value w = (Normal JSUndefined, w') /\
             localStorage w' = localStorage w /\
             fst (getStorage key w') = fst (getStorage key w) /\
             (localStorage w !! key = None ->
              fst (getStorage key w') = Normal JSNull).
Proof.
  intros Hthrow. rewrite setStorage_result, Hthrow.
  rewrite (setStorage_try_throw _ _ _ _ _ Hthrow).
  eexists. split; [reflexivity|]. split; [reflexivity|].
  split; [rewrite !getStorage_result; reflexivity|].
  intros Hmiss. apply getStorage_absent. exact Hmiss.
Qed.

(** C9.  When [localStorage.clear] does not fail, [clearStorage] empties
    the storage area: after [setStorage key value] and [clearStorage],
    no entry is left and [getStorage] returns [null], for [key] and for
    every other key. *)
Theorem clear_after_set (key : string) (value : JSValue) (w : Browser) :
  clear_fault (localStorage (snd (setStorage key value w))) = None ->
  let w' := snd (clearStorage (snd (setStorage key value w))) in
  localStorage w' = ∅ /\
  fst (getStorage key w') = Normal JSNull /\
  forall k, fst (getStorage k w') = Normal JSNull.
Proof.
  intros Hclear w'.
  assert (Hempty : localStorage w' = ∅).
  { subst w'. unfold clearStorage, try_catch, bind, ret, localStorage_clear.
    rewrite Hclear. reflexivity. }
  assert (Hnull : forall k, fst (getStorage k w') = Normal JSNull).
  { intros k. rewrite getStorage_result, Hempty, lookup_empty.
    destruct (getItem_fault _ _); reflexivity. }
  auto.
Qed.

(** C10.  The sentinel of [getStorage] is [null], and a stored [null] reads
    back as that same [null]: once [setStorage key null] has written its
    text, [getStorage key] returns [null], which is also what it returns in
    any browser where [key] has no entry. *)
Theorem stored_null_is_a_miss (key : string) (w : Browser) :
  setItem_fault key "null" (localStorage w) = None ->
  fst (getStorage key (snd (setStorage key JSNull w))) = Normal JSNull /\
  forall w0, localStorage w0 !! key = None ->
             fst (getStorage key (snd (setStorage key JSNull w))) =
             fst (getStorage key w0).
Proof.
  intros Hset.
  assert (Hnull : fst (getStorage key (snd (setStorage key JSNull w))) =
                  Normal JSNull).
  { rewrite getStorage_result.
    rewrite (setStorage_stored _ _ _ _ JSON_stringify_null Hset). simpl.
    destruct (getItem_fault _ _); [reflexivity|].
    rewrite lookup_insert_eq. simpl. rewrite JSON_parse_null. reflexivity. }
  split; [exact Hnull|]. intros w0 Hmiss. rewrite Hnull.
  symmetry. apply getStorage_absent. exact Hmiss.
Qed.

End StorageFacts.

(** * Properties of the event loop *)

Section EventLoopFacts.
Context {Task Env : Type}.
Variable run_task : Task -> Loop Task Env -> Loop Task Env.

Lemma earliest_elem (ts : list (Timer Task)) tm :
  earliest ts = Some tm -> tm ∈ ts.
Proof.
  revert tm. induction ts as [|t rest IH]; intros tm; simpl; [discriminate|].
  destruct (earliest rest) as [u|].
  - destruct (timer_due u <? timer_due t); intros [= <-].
    + right. apply IH. reflexivity.
    + left.
  - intros [= <-]. left.
Qed.

Lemma drop_timer_length id (ts : list (Timer Task)) :
  (length (drop_timer id ts) <= length ts)%nat.
Proof. apply length_filter. Qed.

Lemma drop_timer_shorter (ts : list (Timer Task)) tm :
  tm ∈ ts -> (length (drop_timer (timer_id tm) ts) < length ts)%nat.
Proof.
  induction 1 as [tm ts|tm t ts _ IH]; unfold drop_timer in *;
    rewrite filter_cons; case_decide; simpl; try lia; try done.
  all: pose proof (length_filter (fun t => timer_id t <> timer_id tm) ts); lia.
Qed.

(** Tasks that file no task: running one never lengthens the pending
    list. *)
Hypothesis run_task_files_nothing :
  forall task l, (length (pending (run_task task l)) <= length (pending l))%nat.

Lemma run_timers_settles fuel t l :
  (length (pending l) <= fuel)%nat ->
  next_timer t (run_timers run_task fuel t l) = None.
Proof.
  revert l. induction fuel as [|fuel IH]; intros l Hlen; simpl.
  - unfold next_timer. destruct (pending l); [reflexivity|simpl in Hlen; lia].
  - destruct (next_timer t l) as [tm|] eqn:Hnext; [|exact Hnext].
    apply IH. unfold fire.
    etransitivity; [apply run_task_files_nothing|]. simpl.
    assert (tm ∈ pending l) as Hin.
    { unfold next_timer in Hnext.
      destruct (earliest (pending l)) as [u|] eqn:Hu; [|discriminate].
      destruct (timer_due u <=? t); [|discriminate].
      injection Hnext as <-. apply earliest_elem, Hu. }
    pose proof (drop_timer_shorter _ _ Hin). lia.
Qed.

(** After [advance t] no pending task is due at or before [t]: the rounds
    [advance] allows are enough. *)
Lemma advance_settles t l :
  next_timer t (advance run_task t l) = None.
Proof.
  unfold advance.
  pose proof (run_timers_settles (length (pending l)) t l (Nat.le_refl _)) as Hs.
  unfold next_timer in *. simpl. exact Hs.
Qed.

End EventLoopFacts.

(** Neither wrapper's callback files a task, so [advance] always catches up. *)
Lemma debounce_advance_settles {Args : Type} t (l : Debounce.State Args) :
  next_timer t (advance Debounce.run_task t l) = None.
Proof.
  apply advance_settles. intros [args] l'. simpl.
  unfold Debounce.later, Debounce.func, clearTimeout. simpl.
  destruct (Debounce.timeout (env l')); simpl; [apply drop_timer_length|lia].
Qed.

Lemma throttle_advance_settles {Args : Type} t (l : Throttle.State Args) :
  next_timer t (advance Throttle.run_task t l) = None.
Proof. apply advance_settles. intros [] l'. simpl. lia. Qed.

(** * Properties of [debounce] *)

Section DebounceFacts.
Context {Args : Type}.
Implicit Types (l : Debounce.State Args) (armed : option (Z * Args)).
Implicit Types (calls : list (Z * Args)).

Lemma drop_single {Task} id due (task : Task) :
  drop_timer id [{| timer_id := id; timer_due := due; timer_task := task |}]
  = [].
Proof.
  unfold drop_timer. rewrite filter_cons. simpl.
  case_decide; [congruence|reflexivity].
Qed.

Lemma debounce_advance armed t l :
  Debounce.shaped armed l ->
  let l' := advance Debounce.run_task t l in
  Debounce.func_calls (env l') =
    Debounce.func_calls (env l) ++ Debounce.deliver armed t /\
  clock l' = Z.max (clock l) t /\
  Debounce.shaped (Debounce.still_armed armed t) l'.
Proof.
  destruct l as [c n p [to fc]]. destruct armed as [[due args]|]; simpl.
  - intros (id & -> & -> & Hdue). unfold advance, next_timer. simpl.
    unfold next_timer. simpl.
    destruct (due <=? t) eqn:Hfire; simpl.
    + rewrite drop_single. simpl. apply Z.leb_le in Hfire.
      rewrite (Z.max_r c due) by lia. repeat split; lia.
    + apply Z.leb_gt in Hfire.
      rewrite app_nil_r. repeat split. exists id. repeat split. lia.
  - intros ->. unfold advance. simpl. rewrite app_nil_r. auto.
Qed.

Lemma debounce_call armed wait args l :
  Debounce.shaped armed l ->
  let l' := Debounce.executedFunction wait args l in
  Debounce.func_calls (env l') = Debounce.func_calls (env l) /\
  clock l' = clock l /\
  Debounce.shaped (Some (clock l + Z.max 0 wait, args)) l'.
Proof.
  destruct l as [c n p [to fc]]. destruct armed as [[due b]|]; simpl.
  - intros (id & -> & -> & Hdue). unfold Debounce.executedFunction. simpl.
    rewrite drop_single. simpl. repeat split. eexists. repeat split. lia.
  - intros ->. unfold Debounce.executedFunction.
    destruct to; simpl; (repeat split; eexists; repeat split; lia).
Qed.









End DebounceFacts.

(** * Properties of [throttle] *)

Section ThrottleFacts.
Context {Args : Type}.
Implicit Types (l : Throttle.State Args) (closed_until : option Z).
Implicit Types (calls : list (Z * Args)).

Lemma throttle_advance_log limit closed_until t l :
  Throttle.shaped limit closed_until l ->
  Throttle.func_calls (env (advance Throttle.run_task t l)) =
  Throttle.func_calls (env l).
Proof.
  destruct l as [c n p [flag fc]].
  destruct closed_until as [due|]; simpl.
  - intros (e & b & _ & _ & _ & [(-> & _) | (id & -> & _)]); [reflexivity|].
    unfold advance, next_timer. simpl. unfold next_timer. simpl.
    destruct (due <=? t); reflexivity.
  - intros (-> & _). reflexivity.
Qed.

Lemma throttle_advance limit closed_until t l :
  Throttle.shaped limit closed_until l ->
  clock l <= t ->
  let l' := advance Throttle.run_task t l in
  clock l' = t /\
  Throttle.shaped limit closed_until l' /\
  Throttle.gate_open l' = Throttle.open_at closed_until t.
Proof.
  unfold Throttle.shaped, Throttle.gate_open.
  destruct l as [c n p [flag fc]].
  destruct closed_until as [due|]; simpl.
  - intros (e & b & Hlast & Hdue & He & Hcase) Hle.
    destruct Hcase as [(-> & Hopen & Hpast) | (id & -> & Hclosed)].
    + unfold advance. simpl. split; [lia|]. split.
      * exists e, b. repeat split; try assumption; try lia.
        left. repeat split; try assumption. lia.
      * rewrite Hopen. symmetry. apply Z.leb_le. lia.
    + unfold advance, next_timer. simpl. unfold next_timer. simpl.
      destruct (due <=? t) eqn:Hfire; simpl.
      * apply Z.leb_le in Hfire. rewrite drop_single. simpl.
        split; [lia|]. split; [|reflexivity].
        exists e, b. repeat split; try assumption; try lia.
        left. repeat split. lia.
      * split; [lia|]. split; [|exact Hclosed].
        exists e, b. repeat split; try assumption; try lia.
        right. exists id. split; [reflexivity|exact Hclosed].
  - intros (-> & Hopen & Hlog) Hle. unfold advance. simpl.
    split; [lia|]. auto.
Qed.

Lemma last_snoc_pair {A} (xs : list A) (x : A) : last (xs ++ [x]) = Some x.
Proof. apply last_snoc. Qed.

(** A call through an open gate executes and closes the gate. *)
Lemma throttle_call_open limit closed_until args l :
  Throttle.shaped limit closed_until l ->
  Throttle.gate_open l = true ->
  let l' := Throttle.wrapper limit args l in
  Throttle.func_calls (env l') =
    Throttle.func_calls (env l) ++ [(clock l, args)] /\
  clock l' = clock l /\
  Throttle.shaped limit (Some (clock l + Z.max 0 limit)) l'.
Proof.
  intros Hshape Hopen. unfold Throttle.wrapper. rewrite Hopen.
  assert (pending l = []) as Hidle.
  { destruct closed_until as [due|]; simpl in Hshape.
    - destruct Hshape as (e & b & _ & _ & _ & [(Hp & _) | (id & _ & Hc)]);
        [exact Hp|congruence].
    - apply Hshape. }
  unfold Throttle.shaped, Throttle.gate_open.
  destruct l as [c n p [flag fc]]. simpl in *. subst p.
  split; [reflexivity|]. split; [reflexivity|].
  exists c, args. rewrite last_snoc_pair.
  repeat split; try lia. right. eexists. split; reflexivity.
Qed.

(** The executions are those of the leading-edge account, and the page
    keeps one of its two shapes. *)
Lemma throttle_refines limit calls : forall closed_until l,
  Throttle.shaped limit closed_until l ->
  chronological (clock l) calls ->
  let l' := run_calls Throttle.run_task (Throttle.wrapper limit) calls l in
  Throttle.func_calls (env l') =
    Throttle.func_calls (env l) ++
    Throttle.leading_edge (Z.max 0 limit) closed_until calls /\
  clock l <= clock l' /\
  exists closed_until', Throttle.shaped limit closed_until' l'.
Proof.
  induction calls as [|[t args] rest IH]; intros closed_until l Hshape Hchron;
    cbn [run_calls Throttle.leading_edge].
  - rewrite app_nil_r. split; [reflexivity|]. split; [lia|]. eauto.
  - destruct Hchron as [Hle Hrest]. unfold arrive.
    destruct (throttle_advance limit closed_until t l Hshape Hle)
      as (Hclock & Hshape' & Hgate).
    pose proof (throttle_advance_log limit closed_until t l Hshape) as Hlog.
    set (l1 := advance Throttle.run_task t l) in *.
    destruct (Throttle.gate_open l1) eqn:Hopen.
    + destruct (throttle_call_open limit closed_until args l1 Hshape' Hopen)
        as (Hlog2 & Hclock2 & Hshape2).
      rewrite Hclock in Hlog2, Hclock2, Hshape2.
      destruct (IH _ _ Hshape2) as (Hlog3 & Hclock3 & Hshape3);
        [rewrite Hclock2; exact Hrest|].
      rewrite Hlog3, Hlog2, Hlog, <- app_assoc. simpl.
      split; [|split; [lia|exact Hshape3]].
      destruct closed_until as [due|]; simpl in Hgate; [|reflexivity].
      rewrite <- Hgate. reflexivity.
    + assert (Throttle.wrapper limit args l1 = l1) as ->.
      { unfold Throttle.wrapper. rewrite Hopen. reflexivity. }
      destruct (IH _ _ Hshape') as (Hlog3 & Hclock3 & Hshape3);
        [rewrite Hclock; exact Hrest|].
      rewrite Hlog3, Hlog. split; [|split; [lia|exact Hshape3]].
      destruct closed_until as [due|]; simpl in Hgate; [|discriminate].
      rewrite <- Hgate. reflexivity.
Qed.



Lemma throttle_fresh limit now :
  Throttle.shaped (Args := Args) limit None (Throttle.throttle now).
Proof. repeat split. Qed.



End ThrottleFacts.

(** * The wrappers at work on the reference host *)

Module Instances.
Import RefHost.
Local Open Scope string_scope.

Example set_then_get_a1 :
  fst (@getStorage roomy "k" (snd (@setStorage roomy "k" a1 empty_browser)))
  = Normal a1.
Proof. vm_compute. reflexivity. Qed.

Example get_missing :
  fst (@getStorage roomy "missing" empty_browser) = Normal JSNull.
Proof. vm_compute. reflexivity. Qed.

(** A write refused for lack of room: no exception, the entry as before,
    one line on the console. *)
Example set_over_quota :
  let w := snd (@setStorage cramped "k" (JSString "hello")
                  (browser_with [("k", "1")])) in
  fst (@setStorage cramped "k" (JSString "hello") (browser_with [("k", "1")]))
    = Normal JSUndefined /\
  localStorage w !! "k" = Some "1" /\
  console w = [{| log_message := "Error setting localStorage for key 'k':";
                  log_error := QuotaExceededError |}] /\
  fst (@getStorage cramped "k" w) = Normal (JSNumber 1).
Proof. vm_compute. auto. Qed.

(** [undefined] has no JSON text; what gets stored does not parse. *)
Example set_undefined_reads_null :
  let w := snd (@setStorage roomy "k" JSUndefined empty_browser) in
  localStorage w !! "k" = Some "undefined" /\
  fst (@getStorage roomy "k" w) = Normal JSNull.
Proof. vm_compute. auto. Qed.

(** Calls at 0, 10 and 50 ms under a limit of 100 ms: one execution, at 0,
    with the arguments of the first call. *)
Example throttle_0_10_50 :
  Throttle.func_calls
    (env (Throttle.run 100 [(0, a); (10, b); (50, c)] 1000
            (Throttle.throttle 0)))
  = [(0, a)].
Proof. reflexivity. Qed.

Example throttle_reopens_at_limit :
  Throttle.func_calls
    (env (Throttle.run 100 [(0, a); (99, b); (100, c)] 1000
            (Throttle.throttle 0)))
  = [(0, a); (100, c)].
Proof. reflexivity. Qed.

Example debounce_three_quick_calls :
  Debounce.func_calls
    (env (Debounce.run 300 [(0, a); (100, b); (250, c)] 549
            (Debounce.debounce 0))) = [] /\
  Debounce.func_calls
    (env (Debounce.run 300 [(0, a); (100, b); (250, c)] 550
            (Debounce.debounce 0))) = [(550, c)].
Proof. split; reflexivity. Qed.

(** A call exactly [wait] after the previous one comes too late to cancel
    it. *)
Example debounce_call_at_the_deadline :
  Debounce.func_calls
    (env (Debounce.run 300 [(0, a); (300, b)] 1000 (Debounce.debounce 0)))
  = [(300, a); (600, b)].
Proof. reflexivity. Qed.





Lemma cache_round_trip_witness :
  exists r,
    fst (@getStorage roomy "k" (snd (@setStorage roomy "k" a1 empty_browser)))
      = Normal r /\
    deep_equal a1 r = true.
Proof.
  eapply (@cache_round_trip roomy "k" a1 a1); vm_compute; reflexivity.
Defined.

Lemma getStorage_miss_or_corrupt_witness :
  fst (@getStorage roomy "missing" (browser_with [("k", "{oops")]))
    = Normal JSNull /\
  fst (@getStorage roomy "k" (browser_with [("k", "{oops")]))
    = Normal JSNull.
Proof.
  split; apply (@getStorage_miss_or_corrupt roomy).
  - left. vm_compute. reflexivity.
  - right. exists "{oops", SyntaxError. vm_compute. auto.
Defined.

(** C6, as stated, fails: a key that holds [1] still reads [1] after a
    write to it was refused. *)
Lemma resilience_fails_on_held_key :
  ~ @resilience_as_stated cramped "k" (JSString "hello")
      (browser_with [("k", "1")]).
Proof.
  intros Hclaim. destruct Hclaim as (w' & Hset & Hget).
  - eexists _, _. vm_compute. reflexivity.
  - assert (w' = snd (@setStorage cramped "k" (JSString "hello")
                        (browser_with [("k", "1")]))) as ->
      by (rewrite Hset; reflexivity).
    vm_compute in Hget. discriminate.
Qed.

Lemma failed_set_keeps_entry_witness :
  exists w',
    @setStorage cramped "fresh" (JSString "hello") (browser_with [("k", "1")])
      = (Normal JSUndefined, w') /\
    localStorage w' = localStorage (browser_with [("k", "1")]) /\
    fst (@getStorage cramped "fresh" w')
      = fst (@getStorage cramped "fresh" (browser_with [("k", "1")])) /\
    (localStorage (browser_with [("k", "1")]) !! "fresh" = None ->
     fst (@getStorage cramped "fresh" w') = Normal JSNull).
Proof.
  eapply (@failed_set_keeps_entry cramped "fresh" (JSString "hello")).
  vm_compute. reflexivity.
Defined.

Lemma clear_after_set_witness :
  let w' := snd (@clearStorage roomy
                   (snd (@setStorage roomy "k" a1 (browser_with [("j", "2")]))))
  in
  localStorage w' = ∅ /\
  fst (@getStorage roomy "k" w') = Normal JSNull /\
  forall k, fst (@getStorage roomy k w') = Normal JSNull.
Proof.
  apply (@clear_after_set roomy "k" a1 (browser_with [("j", "2")])).
  reflexivity.
Defined.

Lemma stored_null_is_a_miss_witness :
  fst (@getStorage roomy "k" (snd (@setStorage roomy "k" JSNull empty_browser)))
    = Normal JSNull /\
  forall w0, localStorage w0 !! "k" = None ->
    fst (@getStorage roomy "k" (snd (@setStorage roomy "k" JSNull empty_browser)))
    = fst (@getStorage roomy "k" w0).
Proof.
  apply (@stored_null_is_a_miss roomy "k" empty_browser).
  vm_compute. reflexivity.
Defined.

End Instances.


(** * Further properties of the storage wrappers *)

Section StorageMore.
Context `{H : Host}.

Lemma removeStorage_result key w :
  removeStorage key w =
    match removeItem_fault key (localStorage w) with
    | Some e =>
        (Normal JSUndefined,
         {| localStorage := localStorage w;
            console := console w ++ [{| log_message := removeStorage_message key;
                                        log_error := e |}] |})
    | None =>
        (Normal JSUndefined,
         {| localStorage := delete key (localStorage w); console := console w |})
    end.
Proof.
  unfold removeStorage, try_catch, bind, ret, console_error,
    localStorage_removeItem.
  destruct (removeItem_fault _ _); reflexivity.
Qed.

Lemma setStorage_area key value w :
  localStorage (snd (setStorage key value w)) = localStorage w \/
  exists text,
    localStorage (snd (setStorage key value w)) = <[key := text]> (localStorage w).
Proof.
  rewrite setStorage_result.
  unfold setStorage_try, bind, lift, localStorage_setItem.
  destruct (JSON_stringify value) as [text|e]; [|left; reflexivity].
  destruct (setItem_fault _ _ _); [left; reflexivity|].
  right. eexists. reflexivity.
Qed.

(** X1.  Writing or removing one key never touches the entry of another
    key, whether the storage call goes through or throws. *)
Theorem storage_frame (key other : string) (value : JSValue) (w : Browser) :
  other <> key ->
  localStorage (snd (setStorage key value w)) !! other = localStorage w !! other /\
  localStorage (snd (removeStorage key w)) !! other = localStorage w !! other.
Proof.
  intros Hne. split.
  - destruct (setStorage_area key value w) as [-> | [text ->]]; [reflexivity|].
    apply lookup_insert_ne. congruence.
  - rewrite removeStorage_result.
    destruct (removeItem_fault _ _); simpl; [reflexivity|].
    apply lookup_delete_ne. congruence.
Qed.

(** X2.  [getStorage] only reads: whatever the host does, the storage area
    is the same afterwards, and the console is the same too, or longer by
    the one line of the [catch] block. *)
Theorem getStorage_read_only (key : string) (w : Browser) :
  localStorage (snd (getStorage key w)) = localStorage w /\
  (console (snd (getStorage key w)) = console w \/
   exists e, console (snd (getStorage key w)) =
             console w ++ [{| log_message := getStorage_message key;
                              log_error := e |}]).
Proof.
  unfold getStorage, getStorage_try, try_catch, bind, lift, ret,
    localStorage_getItem, console_error.
  destruct (getItem_fault _ _) as [e|]; simpl; [eauto|].
  destruct (truthy _); simpl; [|auto].
  destruct (JSON_parse _) as [v|e]; simpl; eauto.
Qed.

(** X3.  When [localStorage.removeItem] does not throw, [removeStorage]
    deletes the entry and nothing else, logs nothing, and [getStorage] on
    that key then returns [null], whatever the key held. *)
Theorem remove_then_get (key : string) (w : Browser) :
  removeItem_fault key (localStorage w) = None ->
  let w' := snd (removeStorage key w) in
  localStorage w' = delete key (localStorage w) /\
  console w' = console w /\
  fst (getStorage key w') = Normal JSNull.
Proof.
  intros Hok w'. subst w'. rewrite removeStorage_result, Hok. simpl.
  split; [reflexivity|]. split; [reflexivity|].
  apply getStorage_absent. simpl. apply lookup_delete_eq.
Qed.

(** X4.  A value for which [JSON.stringify] returns [undefined] is not
    refused: [setStorage] quietly stores the text [undefined] under the key,
    replacing what was there.  [JSON.parse] rejects that text, so the next
    [getStorage] returns [null] and logs an error. *)
Theorem set_without_json_text (key : string) (value : JSValue) (w : Browser)
    (e : JSError) :
  JSON_stringify value = Normal None ->
  JSON_parse "undefined" = Throw e ->
  setItem_fault key "undefined" (localStorage w) = None ->
  getItem_fault key (<[key := "undefined"%string]> (localStorage w)) = None ->
  let w1 := snd (setStorage key value w) in
  localStorage w1 = <[key := "undefined"%string]> (localStorage w) /\
  console w1 = console w /\
  getStorage key w1 =
    (Normal JSNull,
     {| localStorage := localStorage w1;
        console := console w ++ [{| log_message := getStorage_message key;
                                    log_error := e |}] |}).
Proof.
  intros Hs Hp Hset Hget w1. subst w1.
  rewrite setStorage_result.
  unfold setStorage_try, bind, lift, localStorage_setItem.
  rewrite Hs. simpl. rewrite Hset. simpl.
  split; [reflexivity|]. split; [reflexivity|].
  unfold getStorage, getStorage_try, try_catch, bind, lift, ret,
    localStorage_getItem, console_error. simpl.
  rewrite Hget, lookup_insert_eq. simpl. rewrite Hp. reflexivity.
Qed.

(** X5.  An entry whose text is empty reads as [null] without [JSON.parse]
    being tried: nothing is logged, unlike for a text that fails to parse. *)
Theorem empty_text_reads_null (key : string) (w : Browser) :
  localStorage w !! key = Some EmptyString ->
  getItem_fault key (localStorage w) = None ->
  getStorage key w = (Normal JSNull, w).
Proof.
  intros Hitem Hget.
  unfold getStorage, getStorage_try, try_catch, bind, lift, ret,
    localStorage_getItem.
  rewrite Hget, Hitem. reflexivity.
Qed.

End StorageMore.

(** * Further properties of [debounce] and [throttle] *)

Section TimersMore.
Context {Args : Type}.
Implicit Types (calls : list (Z * Args)).






Lemma debounce_calls_shaped wait calls : forall armed (l : Debounce.State Args),
  Debounce.shaped armed l ->
  exists armed',
    Debounce.shaped armed'
      (run_calls Debounce.run_task (Debounce.executedFunction wait) calls l).
Proof.
  induction calls as [|[t a] rest IH]; intros armed l Hshape; simpl; [eauto|].
  unfold arrive.
  destruct (debounce_advance armed t l Hshape) as (_ & _ & Hshape').
  destruct (debounce_call _ wait a _ Hshape') as (_ & _ & Hshape2).
  apply (IH _ _ Hshape2).
Qed.

(** X8.  [debounce] keeps at most one timer pending, and it is the one its
    [timeout] variable names: a timer that a later call supersedes is always
    cancelled, so timers do not pile up. *)
Theorem debounce_one_timer (wait now : Z) calls (horizon : Z) :
  let l := Debounce.run wait calls horizon (Debounce.debounce now) in
  (length (pending l) <= 1)%nat /\
  forall tm, tm ∈ pending l -> Debounce.timeout (env l) = Some (timer_id tm).
Proof.
  intros l. subst l. unfold Debounce.run.
  destruct (debounce_calls_shaped wait calls None (Debounce.debounce now) eq_refl)
    as [armed Hshape].
  destruct (debounce_advance armed horizon _ Hshape) as (_ & _ & Hshape').
  destruct (Debounce.still_armed armed horizon) as [[due a]|];
    cbn [Debounce.shaped] in Hshape'.
  - destruct Hshape' as (id & -> & -> & _). split; [simpl; lia|].
    intros tm Hin. apply list_elem_of_singleton in Hin. subst tm. reflexivity.
  - rewrite Hshape'. split; [simpl; lia|]. intros tm Hin. inversion Hin.
Qed.

Lemma throttle_advance_gate limit closed_until t (l : Throttle.State Args) :
  Throttle.shaped limit closed_until l ->
  let l' := advance Throttle.run_task t l in
  (pending l' = [] /\ Throttle.gate_open l' = true) \/
  (exists tm, pending l' = [tm] /\ Throttle.gate_open l' = false /\
              timer_due tm <= clock l' + Z.max 0 limit).
Proof.
  unfold Throttle.shaped, Throttle.gate_open.
  destruct l as [c n p [flag fc]].
  destruct closed_until as [due|]; simpl.
  - intros (e & b & _ & -> & He & [(-> & Hopen & _) | (id & -> & Hclosed)]).
    + left. unfold advance. simpl. auto.
    + unfold advance, next_timer. simpl. unfold next_timer. simpl.
      destruct (e + Z.max 0 limit <=? t); simpl.
      * left. rewrite drop_single. auto.
      * right. eexists. split; [reflexivity|]. split; [exact Hclosed|].
        simpl. lia.
  - intros (-> & Hopen & _). left. unfold advance. simpl. auto.
Qed.

(** X9.  The gate of [throttle] is closed exactly while the one timer that
    reopens it is pending: with the gate open nothing is pending, with the
    gate closed exactly one timer is, due no later than [limit] from now.
    So the gate cannot stay closed for good. *)
Theorem throttle_gate_and_timer (limit now : Z) calls (horizon : Z) :
  chronological now calls ->
  let l := Throttle.run limit calls horizon (Throttle.throttle now) in
  (pending l = [] /\ Throttle.gate_open l = true) \/
  (exists tm, pending l = [tm] /\ Throttle.gate_open l = false /\
              timer_due tm <= clock l + Z.max 0 limit).
Proof.
  intros Hchron l. subst l. unfold Throttle.run.
  destruct (throttle_refines limit calls None (Throttle.throttle now)
              (throttle_fresh limit now) Hchron) as (_ & _ & cu & Hshape).
  apply (throttle_advance_gate limit cu horizon _ Hshape).
Qed.

End TimersMore.

(** * Properties of the string helpers *)

Section StringFacts.
Local Open Scope string_scope.

Lemma substring_0_length n s :
  String.length (String.substring 0 n s) = Nat.min n (String.length s).
Proof.
  revert s. induction n as [|n IH]; intros [|c s]; simpl; auto.
Qed.

Lemma substring_0_split n s :
  exists dropped, s = String.substring 0 n s ++ dropped.
Proof.
  revert s. induction n as [|n IH]; intros [|c s]; simpl;
    try (eexists; reflexivity).
  destruct (IH s) as [dropped Hd]. exists dropped.
  exact (f_equal (String c) Hd).
Qed.

Lemma string_length_append a b :
  String.length (a ++ b) = (String.length a + String.length b)%nat.
Proof. induction a as [|c a IH]; simpl; [reflexivity|]. rewrite IH. reflexivity. Qed.

Lemma js_length_append a b : js_length (a ++ b) = js_length a + js_length b.
Proof. unfold js_length. rewrite string_length_append. lia. Qed.

Lemma js_substring_from_0 s n :
  js_substring s 0 n = String.substring 0 (clamp_index s n) s.
Proof.
  unfold js_substring.
  assert (clamp_index s 0 = 0%nat) as ->.
  { unfold clamp_index, js_length. lia. }
  rewrite Nat.min_0_l, Nat.max_0_l, Nat.sub_0_r. reflexivity.
Qed.

Lemma truncateString_cut s m :
  m < js_length s ->
  truncateString s m = String.substring 0 (Z.to_nat (m - 3)) s ++ "...".
Proof.
  intros Hlong. unfold truncateString.
  rewrite (proj2 (Z.leb_gt _ _)) by lia.
  rewrite js_substring_from_0. f_equal. f_equal.
  unfold clamp_index. lia.
Qed.

(** X10.  With a limit of three or more, [truncateString] returns a string
    no longer than the limit: the string itself when it fits, and otherwise
    its first [maxLength - 3] characters followed by three dots, which is
    exactly [maxLength] long. *)
Theorem truncateString_fits (str : string) (maxLength : Z) :
  3 <= maxLength ->
  js_length (truncateString str maxLength) = Z.min (js_length str) maxLength /\
  (js_length str <= maxLength -> truncateString str maxLength = str) /\
  (maxLength < js_length str ->
   exists kept dropped,
     str = kept ++ dropped /\
     js_length kept = maxLength - 3 /\
     truncateString str maxLength = kept ++ "...").
Proof.
  intros Hm.
  assert (js_length str <= maxLength -> truncateString str maxLength = str)
    as Hfit.
  { intros Hle. unfold truncateString.
    rewrite (proj2 (Z.leb_le _ _) Hle). reflexivity. }
  assert (maxLength < js_length str ->
          js_length (String.substring 0 (Z.to_nat (maxLength - 3)) str)
          = maxLength - 3) as Hkept.
  { intros Hlong. unfold js_length in *. rewrite substring_0_length. lia. }
  split; [|split].
  - destruct (Z.le_gt_cases (js_length str) maxLength) as [Hle|Hlong].
    + rewrite (Hfit Hle). lia.
    + rewrite (truncateString_cut _ _ Hlong), js_length_append, (Hkept Hlong).
      change (js_length "...") with 3. lia.
  - exact Hfit.
  - intros Hlong.
    destruct (substring_0_split (Z.to_nat (maxLength - 3)) str) as [dropped Hd].
    eexists _, dropped. split; [exact Hd|]. split; [exact (Hkept Hlong)|].
    apply truncateString_cut, Hlong.
Qed.

(** X11.  With a limit below three, a string longer than the limit is
    replaced by the three dots alone, which is longer than the limit. *)
Theorem truncateString_small_limit (str : string) (maxLength : Z) :
  maxLength < 3 ->
  maxLength < js_length str ->
  truncateString str maxLength = "..." /\
  maxLength < js_length (truncateString str maxLength).
Proof.
  intros Hm Hlong.
  assert (truncateString str maxLength = "...") as ->.
  { rewrite (truncateString_cut _ _ Hlong).
    replace (Z.to_nat (maxLength - 3)) with 0%nat by lia.
    destruct str; reflexivity. }
  split; [reflexivity|]. change (js_length "...") with 3. lia.
Qed.

(** X12.  Truncating twice with the same limit is truncating once. *)
Theorem truncateString_idempotent (str : string) (maxLength : Z) :
  truncateString (truncateString str maxLength) maxLength
  = truncateString str maxLength.
Proof.
  destruct (Z.le_gt_cases (js_length str) maxLength) as [Hle|Hlong].
  - unfold truncateString. rewrite (proj2 (Z.leb_le _ _) Hle).
    rewrite (proj2 (Z.leb_le _ _) Hle). reflexivity.
  - destruct (Z.le_gt_cases 3 maxLength) as [Hbig|Hsmall].
    + assert (js_length (truncateString str maxLength) <= maxLength) as Hle.
      { rewrite (truncateString_cut _ _ Hlong), js_length_append.
        unfold js_length in *. rewrite substring_0_length.
        change (Z.of_nat (String.length "...")) with 3. lia. }
      unfold truncateString at 1.
      rewrite (proj2 (Z.leb_le _ _) Hle). reflexivity.
    + assert (truncateString str maxLength = "...") as ->.
      { rewrite (truncateString_cut _ _ Hlong).
        replace (Z.to_nat (maxLength - 3)) with 0%nat by lia.
        destruct str; reflexivity. }
      rewrite truncateString_cut by (change (js_length "...") with 3; lia).
      replace (Z.to_nat (maxLength - 3)) with 0%nat by lia. reflexivity.
Qed.

End StringFacts.
Section NormalizeFacts.
Local Open Scope string_scope.

Lemma trimEnd_fixed c rest :
  trimEnd (String c rest) = String c rest ->
  (rest = EmptyString /\ is_whitespace c = false) \/
  (rest <> EmptyString /\ trimEnd rest = rest).
Proof.
  simpl. destruct (trimEnd rest) as [|k ks] eqn:Hrest.
  - destruct (is_whitespace c); [discriminate|].
    intros [= <-]. left. auto.
  - intros [= <-]. right. split; [discriminate|reflexivity].
Qed.

Lemma trimEnd_idempotent s : trimEnd (trimEnd s) = trimEnd s.
Proof.
  induction s as [|c rest IH]; simpl; [reflexivity|].
  destruct (trimEnd rest) as [|k ks] eqn:Hrest.
  - destruct (is_whitespace c) eqn:Hc; simpl; [reflexivity|].
    rewrite Hc. reflexivity.
  - simpl in IH |- *. rewrite IH. reflexivity.
Qed.

(** What [trim] leaves: nothing, or a string that starts with a character
    that is not white space and that [trimEnd] keeps whole. *)
Lemma trim_shape s :
  trim s = EmptyString \/
  exists c rest, trim s = String c rest /\ is_whitespace c = false /\
                 trimEnd (String c rest) = String c rest.
Proof.
  unfold trim.
  assert (trimStart s = EmptyString \/
          exists c rest, trimStart s = String c rest /\ is_whitespace c = false)
    as [-> | (c & rest & -> & Hc)].
  { induction s as [|c rest IH]; simpl; [auto|].
    destruct (is_whitespace c) eqn:Hc; [exact IH|]. right. eauto. }
  - left. reflexivity.
  - right. exists c.
    assert (exists rest', trimEnd (String c rest) = String c rest') as [rest' Hr].
    { simpl. rewrite Hc. destruct (trimEnd rest); eauto. }
    exists rest'. split; [exact Hr|]. split; [exact Hc|].
    rewrite <- Hr. apply trimEnd_idempotent.
Qed.

Lemma runs_tidy u : forall p,
  u <> EmptyString -> trimEnd u = u ->
  tidy p (replace_whitespace_runs p u) = true.
Proof.
  induction u as [|c rest IH]; intros p Hne Hfix; [congruence|].
  destruct (trimEnd_fixed _ _ Hfix) as [[-> Hc] | [Hrest Hfix']]; simpl.
  - rewrite Hc. simpl. rewrite Hc. reflexivity.
  - destruct (is_whitespace c) eqn:Hc.
    + destruct p; [apply IH; assumption|].
      simpl. apply IH; assumption.
    + simpl. rewrite Hc. apply IH; assumption.
Qed.

Lemma tidy_trimEnd s : forall p, tidy p s = true -> trimEnd s = s.
Proof.
  induction s as [|c rest IH]; intros p; simpl; [reflexivity|].
  destruct (is_whitespace c) eqn:Hc.
  - intros Ht. apply andb_true_iff in Ht as [_ Hrest].
    rewrite (IH _ Hrest). destruct rest; [discriminate|reflexivity].
  - intros Hrest. rewrite (IH _ Hrest). destruct rest; reflexivity.
Qed.

Lemma tidy_runs s : forall p,
  tidy p s = true -> replace_whitespace_runs p s = s.
Proof.
  induction s as [|c rest IH]; intros p; simpl; [reflexivity|].
  destruct (is_whitespace c) eqn:Hc.
  - intros Ht. apply andb_true_iff in Ht as [Ht Hrest].
    apply andb_true_iff in Ht as [Hsp Hp].
    destruct p; [discriminate|].
    apply Ascii.eqb_eq in Hsp. subst c. rewrite (IH _ Hrest). reflexivity.
  - intros Hrest. rewrite (IH _ Hrest). reflexivity.
Qed.

(** [normalizeString] yields the empty string or a tidy one, and leaves
    such strings alone. *)
Lemma normalizeString_tidy s :
  normalizeString s = EmptyString \/ tidy true (normalizeString s) = true.
Proof.
  unfold normalizeString.
  destruct (trim_shape s) as [-> | (c & rest & -> & Hc & Hfix)]; [left; reflexivity|].
  right. simpl. rewrite Hc. simpl. rewrite Hc.
  destruct (trimEnd_fixed _ _ Hfix) as [[-> _] | [Hrest Hfix']]; [reflexivity|].
  apply runs_tidy; assumption.
Qed.

Lemma tidy_trim r : tidy true r = true -> trim r = r.
Proof.
  intros Ht. unfold trim.
  assert (trimStart r = r) as ->.
  { destruct r as [|c rest]; [reflexivity|]. simpl in *.
    destruct (is_whitespace c); [|reflexivity].
    rewrite andb_false_r in Ht. discriminate. }
  apply (tidy_trimEnd _ _ Ht).
Qed.

Lemma tidy_normalizeString r :
  r = EmptyString \/ tidy true r = true -> normalizeString r = r.
Proof.
  intros [-> | Ht]; [reflexivity|].
  unfold normalizeString. rewrite (tidy_trim _ Ht).
  destruct r as [|c rest]; [reflexivity|]. simpl in *.
  destruct (is_whitespace c); [rewrite andb_false_r in Ht; discriminate|].
  rewrite (tidy_runs _ _ Ht). reflexivity.
Qed.

Lemma tidy_suffix a : forall p x,
  tidy p (a ++ x) = true -> exists p', tidy p' x = true.
Proof.
  induction a as [|c a IH]; intros p x; simpl; [eauto|].
  destruct (is_whitespace c).
  - intros Ht. apply andb_true_iff in Ht as [_ Hrest]. eapply IH, Hrest.
  - apply IH.
Qed.

(** X13.  [normalizeString] is idempotent. *)
Theorem normalizeString_idempotent (str : string) :
  normalizeString (normalizeString str) = normalizeString str.
Proof. apply tidy_normalizeString, normalizeString_tidy. Qed.

(** X14.  The result of [normalizeString] is in normal form: [trim] leaves
    it as it is, its only white space characters are spaces, and no two
    spaces are adjacent. *)
Theorem normalizeString_normal_form (str : string) :
  let r := normalizeString str in
  trim r = r /\
  (forall a c b, r = a ++ String c b -> is_whitespace c = true -> c = " "%char) /\
  (forall a b, r <> a ++ "  " ++ b).
Proof.
  intros r. subst r.
  destruct (normalizeString_tidy str) as [-> | Ht].
  { split; [reflexivity|]. split.
    - intros [|x a] c b; discriminate.
    - intros [|x a] b; discriminate. }
  set (r := normalizeString str) in *. split; [|split].
  - apply tidy_trim, Ht.
  - intros a c b Hr Hc. rewrite Hr in Ht.
    destruct (tidy_suffix _ _ _ Ht) as [p' Hx]. simpl in Hx. rewrite Hc in Hx.
    apply andb_true_iff in Hx as [Hx _]. apply andb_true_iff in Hx as [Hx _].
    apply Ascii.eqb_eq, Hx.
  - intros a b Hr. rewrite Hr in Ht.
    destruct (tidy_suffix _ _ _ Ht) as [p' Hx]. simpl in Hx.
    rewrite !andb_false_r, ?andb_false_l in Hx.
    destruct p'; simpl in Hx; discriminate.
Qed.

Lemma visible_trimStart s : visible (trimStart s) = visible s.
Proof.
  induction s as [|c rest IH]; simpl; [reflexivity|].
  destruct (is_whitespace c) eqn:Hc; [exact IH|]. simpl. rewrite Hc. reflexivity.
Qed.

Lemma visible_trimEnd s : visible (trimEnd s) = visible s.
Proof.
  induction s as [|c rest IH]; simpl; [reflexivity|].
  destruct (trimEnd rest) as [|k ks] eqn:Hrest.
  - destruct (is_whitespace c) eqn:Hc; simpl in *; [exact IH|].
    rewrite Hc, <- IH. reflexivity.
  - change (visible (String c (String k ks))) with
      (if is_whitespace c then visible (String k ks)
       else String c (visible (String k ks))).
    rewrite IH. reflexivity.
Qed.

Lemma visible_runs s : forall p, visible (replace_whitespace_runs p s) = visible s.
Proof.
  induction s as [|c rest IH]; intros p; simpl; [reflexivity|].
  destruct (is_whitespace c) eqn:Hc.
  - destruct p; simpl; apply IH.
  - simpl. rewrite Hc, IH. reflexivity.
Qed.

(** X15.  [normalizeString] touches white space only: the other characters
    come out all, in their order.  A string of white space alone comes out
    empty. *)
Theorem normalizeString_keeps_visible (str : string) :
  visible (normalizeString str) = visible str /\
  (visible str = EmptyString -> normalizeString str = EmptyString).
Proof.
  assert (visible (normalizeString str) = visible str) as Hv.
  { unfold normalizeString, trim.
    rewrite visible_runs, visible_trimEnd, visible_trimStart. reflexivity. }
  split; [exact Hv|]. intros Hblank.
  destruct (normalizeString_tidy str) as [Hr | Ht]; [exact Hr|].
  rewrite <- Hv in Hblank.
  destruct (normalizeString str) as [|c rest]; [reflexivity|]. simpl in *.
  destruct (is_whitespace c); [|discriminate].
  rewrite andb_false_r in Ht. discriminate.
Qed.

End NormalizeFacts.

(** * Properties of the array helpers *)

Section UniqueFacts.
Context {A : Type} `{EqDecision A}.
Implicit Types (arr set : list A).

Lemma new_Set_from arr : forall set,
  NoDup set ->
  exists added,
    fold_left Set_add arr set = set ++ added /\
    NoDup (set ++ added) /\
    sublist added arr /\
    (forall x, x ∈ set ++ added <-> x ∈ set \/ x ∈ arr).
Proof.
  induction arr as [|a arr IH]; intros set Hset; simpl.
  - exists []. rewrite app_nil_r.
    split; [reflexivity|]. split; [exact Hset|]. split; [constructor|].
    intros x. rewrite elem_of_nil. tauto.
  - unfold Set_add at 2. destruct (decide (a ∈ set)) as [Hin | Hnew].
    + destruct (IH set Hset) as (added & -> & Hnd & Hsub & Hmem).
      exists added. split; [reflexivity|]. split; [exact Hnd|].
      split; [apply sublist_cons_r; left; exact Hsub|].
      intros x. rewrite (Hmem x), elem_of_cons.
      split; [tauto|]. intros [Hx | [-> | Hx]]; auto.
    + assert (NoDup (set ++ [a])) as Hset'.
      { apply NoDup_app. split; [exact Hset|]. split; [|apply NoDup_singleton].
        intros x Hx Hxa. apply list_elem_of_singleton in Hxa. congruence. }
      destruct (IH _ Hset') as (added & -> & Hnd & Hsub & Hmem).
      exists (a :: added). rewrite <- app_assoc in *. simpl in *.
      split; [reflexivity|]. split; [exact Hnd|].
      split; [apply sublist_skip; exact Hsub|].
      intros x. rewrite (Hmem x), !elem_of_app, !elem_of_cons, elem_of_nil.
      tauto.
Qed.

Lemma new_Set_nodup arr : forall set,
  NoDup (set ++ arr) -> fold_left Set_add arr set = set ++ arr.
Proof.
  induction arr as [|a arr IH]; intros set Hnd; simpl.
  - rewrite app_nil_r. reflexivity.
  - unfold Set_add at 2. destruct (decide (a ∈ set)) as [Hin | Hnew].
    + apply NoDup_app in Hnd as (_ & Hdisj & _).
      exfalso. apply (Hdisj a Hin). left.
    + rewrite IH; rewrite <- app_assoc; [reflexivity|exact Hnd].
Qed.


(** X17.  An array without repetition comes back as it is; so
    [getUnique] applied twice is [getUnique] applied once. *)
Theorem getUnique_fixed arr :
  (NoDup arr -> getUnique arr = arr) /\
  getUnique (getUnique arr) = getUnique arr.
Proof.
  assert (forall l : list A, NoDup l -> getUnique l = l) as Hfix.
  { intros l Hnd. unfold getUnique, new_Set. apply (new_Set_nodup l []), Hnd. }
  split; [apply Hfix|]. apply Hfix.
  unfold getUnique, new_Set.
  destruct (new_Set_from arr [] (NoDup_nil_2 (A:=A))) as (added & -> & Hnd & _).
  exact Hnd.
Qed.

End UniqueFacts.

Section FlattenFacts.

Lemma flattenArray_cons x rest :
  flattenArray (x :: rest) = flat_deep x ++ flattenArray rest.
Proof. reflexivity. Qed.

Fixpoint flat_deep_flat (v : JSValue) :
  Forall (fun x => is_array x = false) (flat_deep v).
Proof.
  destruct v as [| | b | n | s | items | fields];
    try (constructor; [reflexivity|constructor]).
  change (Forall (fun x => is_array x = false) (flattenArray items)).
  induction items as [|x rest IH]; [constructor|].
  rewrite flattenArray_cons. apply Forall_app. split; [apply flat_deep_flat|exact IH].
Qed.

Lemma flattenArray_app xs ys :
  flattenArray (xs ++ ys) = flattenArray xs ++ flattenArray ys.
Proof.
  induction xs as [|x xs IH]; [reflexivity|].
  rewrite <- app_comm_cons, !flattenArray_cons, IH. apply app_assoc.
Qed.

Lemma flattenArray_flat arr :
  Forall (fun x => is_array x = false) arr -> flattenArray arr = arr.
Proof.
  induction 1 as [|x rest Hx _ IH]; [reflexivity|].
  rewrite flattenArray_cons, IH. destruct x; try reflexivity. discriminate.
Qed.

(** X18.  [flattenArray] leaves no array among the elements of its result,
    whatever the depth of nesting; an array that holds no array comes back
    as it is, so flattening twice is flattening once. *)
Theorem flattenArray_flattens (arr : list JSValue) :
  Forall (fun x => is_array x = false) (flattenArray arr) /\
  (Forall (fun x => is_array x = false) arr -> flattenArray arr = arr) /\
  flattenArray (flattenArray arr) = flattenArray arr.
Proof.
  split; [apply flat_deep_flat|]. split; [apply flattenArray_flat|].
  apply flattenArray_flat, flat_deep_flat.
Qed.

(** X19.  [flattenArray] works element by element and keeps the order: the
    result for two arrays joined is the two results joined, and an element
    that is an array contributes what flattening it gives. *)
Theorem flattenArray_concat (xs ys inner : list JSValue) :
  flattenArray (xs ++ ys) = flattenArray xs ++ flattenArray ys /\
  flattenArray (xs ++ JSArray inner :: ys)
  = flattenArray xs ++ flattenArray inner ++ flattenArray ys.
Proof.
  split; [apply flattenArray_app|].
  rewrite flattenArray_app, flattenArray_cons. reflexivity.
Qed.

End FlattenFacts.

(** * Properties of the validators *)

Section RegexFacts.
Local Open Scope string_scope.

Lemma append_empty s1 s2 :
  s1 ++ s2 = EmptyString -> s1 = EmptyString /\ s2 = EmptyString.
Proof. destruct s1; simpl; [auto|discriminate]. Qed.

Lemma append_cons s1 s2 c s :
  s1 ++ s2 = String c s ->
  (s1 = EmptyString /\ s2 = String c s) \/
  (exists s1', s1 = String c s1' /\ s = s1' ++ s2).
Proof.
  destruct s1 as [|x s1]; simpl; [auto|].
  intros [= -> <-]. right. eauto.
Qed.

Lemma nullable_denotes r : nullable r = true <-> denotes r EmptyString.
Proof.
  split.
  - induction r as [| |p|r1 IH1 r2 IH2|r1 IH1 r2 IH2|r IH]; simpl;
      try discriminate; intros Hn.
    + constructor.
    + apply andb_true_iff in Hn as [H1 H2].
      apply (denotes_seq r1 r2 EmptyString EmptyString); auto.
    + apply orb_true_iff in Hn as [H1 | H2];
        [apply denotes_alt_l | apply denotes_alt_r]; auto.
    + constructor.
  - intros Hd. remember EmptyString as s eqn:Hs.
    induction Hd as [|p c Hp|r1 r2 s1 s2 _ IH1 _ IH2|r1 r2 s _ IH|r1 r2 s _ IH
                     |r|r s1 s2 _ _ _ _]; simpl; try reflexivity.
    + discriminate.
    + apply append_empty in Hs as [-> ->].
      rewrite IH1, IH2 by reflexivity. reflexivity.
    + rewrite IH by assumption. reflexivity.
    + rewrite IH by assumption. apply orb_true_r.
Qed.

Lemma derive_sound c r : forall s, denotes (derive c r) s -> denotes r (String c s).
Proof.
  induction r as [| |p|r1 IH1 r2 IH2|r1 IH1 r2 IH2|r IH]; simpl; intros s Hd.
  - inversion Hd.
  - inversion Hd.
  - destruct (p c) eqn:Hp; inversion Hd; subst. constructor. exact Hp.
  - inversion Hd as [| | |? ? ? Hl|? ? ? Hr| |]; subst.
    + inversion Hl as [| |? ? s1 s2 H1 H2| | | |]; subst.
      apply (denotes_seq r1 r2 (String c s1) s2); auto.
    + destruct (nullable r1) eqn:Hn; [|inversion Hr].
      apply (denotes_seq r1 r2 EmptyString (String c s)); auto.
      apply nullable_denotes, Hn.
  - inversion Hd; subst; [apply denotes_alt_l | apply denotes_alt_r]; auto.
  - inversion Hd as [| |? ? s1 s2 H1 H2| | | |]; subst.
    apply (denotes_star_more r (String c s1) s2); auto.
Qed.

Lemma derive_complete c r s' :
  denotes r s' -> forall s, s' = String c s -> denotes (derive c r) s.
Proof.
  induction 1 as [|p x Hp|r1 r2 s1 s2 H1 IH1 H2 IH2|r1 r2 s0 _ IH|r1 r2 s0 _ IH
                  |r|r s1 s2 H1 IH1 H2 IH2]; intros s Hs; simpl.
  - discriminate.
  - injection Hs as -> <-. rewrite Hp. constructor.
  - apply append_cons in Hs as [[-> ->] | (s1' & -> & ->)].
    + apply denotes_alt_r. rewrite (proj2 (nullable_denotes r1) H1).
      apply IH2. reflexivity.
    + apply denotes_alt_l. apply denotes_seq; [apply IH1; reflexivity|exact H2].
  - apply denotes_alt_l, IH, Hs.
  - apply denotes_alt_r, IH, Hs.
  - discriminate.
  - apply append_cons in Hs as [[-> ->] | (s1' & -> & ->)].
    + apply IH2. reflexivity.
    + apply denotes_seq; [apply IH1; reflexivity|exact H2].
Qed.

(** [matches] decides the language of the pattern. *)
Lemma matches_denotes s : forall r, matches r s = true <-> denotes r s.
Proof.
  induction s as [|c s IH]; intros r; simpl.
  - apply nullable_denotes.
  - rewrite IH. split; [apply derive_sound|].
    intros Hd. eapply derive_complete; [exact Hd|reflexivity].
Qed.

Lemma star_class p s : denotes (Star (Class p)) s <-> every p s = true.
Proof.
  split.
  - intros Hd. remember (Star (Class p)) as r eqn:Hr.
    induction Hd as [| | | | |r|r s1 s2 H1 _ _ IH2]; try discriminate;
      [reflexivity|].
    injection Hr as ->. inversion H1 as [|? c Hc| | | | |]; subst.
    change (p c && every p s2 = true).
    rewrite IH2 by reflexivity. rewrite andb_true_r. exact Hc.
  - induction s as [|c s IH]; simpl; intros He; [constructor|].
    apply andb_true_iff in He as [Hc Hs].
    apply (denotes_star_more (Class p) (String c EmptyString) s);
      [constructor; exact Hc|apply IH, Hs].
Qed.

(** [[p]+]: one character or more, all of the class. *)
Lemma plus_class p s :
  denotes (Plus (Class p)) s <-> s <> EmptyString /\ every p s = true.
Proof.
  unfold Plus. split.
  - intros Hd. inversion Hd as [| |? ? s1 s2 H1 H2| | | |]; subst.
    inversion H1 as [|? c Hc| | | | |]; subst. split; [discriminate|].
    change (p c && every p s2 = true).
    rewrite (proj1 (star_class p s2) H2), andb_true_r. exact Hc.
  - intros [Hne He]. destruct s as [|c s]; [congruence|]. simpl in He.
    apply andb_true_iff in He as [Hc Hs].
    apply (denotes_seq (Class p) (Star (Class p)) (String c EmptyString) s);
      [constructor; exact Hc|apply star_class, Hs].
Qed.

Lemma every_append p a b : every p (a ++ b) = every p a && every p b.
Proof.
  induction a as [|c a IH]; simpl; [reflexivity|].
  rewrite IH. apply andb_assoc.
Qed.

Lemma occurrences_append c a b :
  occurrences c (a ++ b) = (occurrences c a + occurrences c b)%nat.
Proof. induction a as [|x a IH]; simpl; [reflexivity|]. rewrite IH. lia. Qed.

Lemma every_email_char s :
  every email_char s = true ->
  occurrences "@" s = 0%nat /\ every (fun c => negb (is_whitespace c)) s = true.
Proof.
  induction s as [|c s IH]; simpl; [auto|].
  intros He. apply andb_true_iff in He as [Hc Hs].
  destruct (IH Hs) as [-> ->]. unfold email_char in Hc.
  apply negb_true_iff, orb_false_iff in Hc as [Hws Hat].
  rewrite Hat, Hws. auto.
Qed.

(** The strings [isValidEmail] accepts. *)
Lemma isValidEmail_shape email :
  isValidEmail email = true <->
  exists name domain tld,
    email = name ++ "@" ++ domain ++ "." ++ tld /\
    (name <> EmptyString /\ every email_char name = true) /\
    (domain <> EmptyString /\ every email_char domain = true) /\
    (tld <> EmptyString /\ every email_char tld = true).
Proof.
  unfold isValidEmail. rewrite matches_denotes. unfold emailRegex. split.
  - intros Hd.
    inversion Hd as [| |? ? name s2 Hname H2| | | |]; subst.
    inversion H2 as [| |? ? at_ s3 Hat H3| | | |]; subst.
    inversion H3 as [| |? ? domain s4 Hdomain H4| | | |]; subst.
    inversion H4 as [| |? ? dot tld Hdot Htld| | | |]; subst.
    inversion Hat as [|? c Hc| | | | |]; subst. apply Ascii.eqb_eq in Hc. subst c.
    inversion Hdot as [|? c Hc| | | | |]; subst. apply Ascii.eqb_eq in Hc. subst c.
    exists name, domain, tld. split; [reflexivity|].
    repeat split; try (apply plus_class; assumption);
      apply (plus_class email_char); assumption.
  - intros (name & domain & tld & -> & Hname & Hdomain & Htld).
    apply denotes_seq; [apply plus_class, Hname|].
    apply (denotes_seq _ _ "@"); [constructor; reflexivity|].
    apply denotes_seq; [apply plus_class, Hdomain|].
    apply (denotes_seq _ _ "."); [constructor; reflexivity|].
    apply plus_class, Htld.
Qed.

(** X20.  [isValidEmail] accepts exactly the strings of the form
    [name@domain.tld] in which the three parts are not empty and hold
    neither white space nor [@]. *)
Theorem isValidEmail_accepts (email : string) :
  isValidEmail email = true <->
  exists name domain tld,
    email = name ++ "@" ++ domain ++ "." ++ tld /\
    (name <> EmptyString /\ every email_char name = true) /\
    (domain <> EmptyString /\ every email_char domain = true) /\
    (tld <> EmptyString /\ every email_char tld = true).
Proof. apply isValidEmail_shape. Qed.

(** X21.  A string that [isValidEmail] accepts has exactly one [@], no
    white space, and at least five characters. *)
Theorem isValidEmail_one_at (email : string) :
  isValidEmail email = true ->
  occurrences "@" email = 1%nat /\
  every (fun c => negb (is_whitespace c)) email = true /\
  5 <= js_length email.
Proof.
  intros Hv.
  apply isValidEmail_shape in Hv
    as (name & domain & tld & -> & [Hn1 Hn2] & [Hd1 Hd2] & [Ht1 Ht2]).
  destruct (every_email_char _ Hn2) as [Hna Hnw].
  destruct (every_email_char _ Hd2) as [Hda Hdw].
  destruct (every_email_char _ Ht2) as [Hta Htw].
  split; [|split].
  - rewrite !occurrences_append, Hna, Hda, Hta. reflexivity.
  - rewrite !every_append, Hnw, Hdw, Htw. reflexivity.
  - rewrite !js_length_append. unfold js_length.
    destruct name; [congruence|]. destruct domain; [congruence|].
    destruct tld; [congruence|]. simpl. lia.
Qed.

Lemma digits_only_append a b :
  digits_only (a ++ b) = digits_only a ++ digits_only b.
Proof.
  induction a as [|c a IH]; simpl; [reflexivity|].
  destruct (is_digit c); simpl; rewrite IH; reflexivity.
Qed.

Lemma isValidPhone_shape phone :
  isValidPhone phone = true <->
  every phone_char phone = true /\ 10 <= js_length (digits_only phone).
Proof.
  unfold isValidPhone, phoneRegex.
  rewrite andb_true_iff, matches_denotes, plus_class, Z.leb_le.
  split; [tauto|]. intros [He Hd]. repeat split; try assumption.
  intros ->. simpl in Hd. unfold js_length in Hd. simpl in Hd. lia.
Qed.

(** X22.  [isValidPhone] accepts exactly the strings made of digits, white
    space and the characters [-+()] that hold ten digits or more; where the
    digits stand among the other characters does not matter. *)
Theorem isValidPhone_accepts (phone : string) :
  isValidPhone phone = true <->
  every phone_char phone = true /\ 10 <= js_length (digits_only phone).
Proof. apply isValidPhone_shape. Qed.

(** X23.  [isValidPhone] sets no upper limit: an accepted number followed
    by any more of the allowed characters is accepted. *)
Theorem isValidPhone_no_upper_limit (phone more : string) :
  isValidPhone phone = true ->
  every phone_char more = true ->
  isValidPhone (phone ++ more) = true.
Proof.
  intros Hv Hm. apply isValidPhone_shape in Hv as [He Hd].
  apply isValidPhone_shape.
  rewrite every_append, He, Hm, digits_only_append, js_length_append.
  split; [reflexivity|]. unfold js_length in *. lia.
Qed.

End RegexFacts.

(** * Properties of [groupBy] and [isEmpty] *)

Section GroupByFacts.
Context {Obj : Type}.
Variable key_of : Obj -> string.
Variable inherited : string -> bool.

Lemma group_of_snoc (seen : list Obj) (obj : Obj) (key : string) :
  group_of key_of (seen ++ [obj]) key =
    if decide (key_of obj = key)
    then Some (default [] (group_of key_of seen key) ++ [obj])
    else group_of key_of seen key.
Proof.
  unfold group_of. rewrite filter_app, filter_cons, filter_nil.
  destruct (decide (key_of obj = key)) as [Heq | Hne].
  - destruct (filter _ seen); reflexivity.
  - rewrite app_nil_r. reflexivity.
Qed.

Lemma group_of_member (seen : list Obj) (key : string) group :
  group_of key_of seen key = Some group ->
  exists obj, obj ∈ seen /\ key_of obj = key.
Proof.
  unfold group_of.
  destruct (filter _ seen) as [|obj tl] eqn:Hf; [discriminate|]. intros _.
  assert (obj ∈ filter (fun o => key_of o = key) seen) as Hin
    by (rewrite Hf; left).
  apply list_elem_of_filter in Hin as [Hkey Hin]. eauto.
Qed.

(** The accumulator holds the groups of the elements seen so far. *)
Lemma reduce_groups_spec (rest : list Obj) : forall seen acc,
  Forall (fun obj => inherited (key_of obj) = false) seen ->
  (forall key, acc !! key = group_of key_of seen key) ->
  match reduce_groups key_of inherited rest acc with
  | Normal groups =>
      Forall (fun obj => inherited (key_of obj) = false) rest /\
      forall key, groups !! key = group_of key_of (seen ++ rest) key
  | Throw e =>
      e = TypeError /\
      Exists (fun obj => inherited (key_of obj) = true) rest
  end.
Proof.
  induction rest as [|obj rest IH]; intros seen acc Hseen Hacc; simpl.
  - rewrite app_nil_r. auto.
  - unfold groupBy_step.
    assert (forall key,
      <[key_of obj := default [] (group_of key_of seen (key_of obj)) ++ [obj]]> acc
        !! key = group_of key_of (seen ++ [obj]) key) as Hnext.
    { intros key. rewrite group_of_snoc, lookup_insert.
      destruct (decide (key_of obj = key)) as [<- | Hne]; [reflexivity|apply Hacc]. }
    assert (inherited (key_of obj) = false ->
            Forall (fun o => inherited (key_of o) = false) (seen ++ [obj]))
      as Hseen'.
    { intros Hk. apply Forall_app. split; [exact Hseen|]. constructor; auto. }
    destruct (acc !! key_of obj) as [group|] eqn:Hown.
    + rewrite Hacc in Hown. rewrite Hown in Hnext. simpl in Hnext.
      assert (inherited (key_of obj) = false) as Hk.
      { destruct (group_of_member _ _ _ Hown) as (o & Hin & <-).
        rewrite Forall_forall in Hseen. apply Hseen. exact Hin. }
      specialize (IH (seen ++ [obj]) _ (Hseen' Hk) Hnext).
      rewrite <- app_assoc in IH. simpl in IH.
      destruct (reduce_groups _ _ rest _) as [groups|e].
      * destruct IH as [Hrest Hgroups]. split; [|exact Hgroups].
        constructor; assumption.
      * destruct IH as [-> Hex]. split; [reflexivity|]. right. exact Hex.
    + destruct (inherited (key_of obj)) eqn:Hinh.
      * split; [reflexivity|]. left. exact Hinh.
      * rewrite Hacc in Hown. rewrite Hown in Hnext. simpl in Hnext.
        specialize (IH (seen ++ [obj]) _ (Hseen' eq_refl) Hnext).
        rewrite <- app_assoc in IH. simpl in IH.
        destruct (reduce_groups _ _ rest _) as [groups|e].
        -- destruct IH as [Hrest Hgroups]. split; [|exact Hgroups].
           constructor; assumption.
        -- destruct IH as [-> Hex]. split; [reflexivity|]. right. exact Hex.
Qed.

Lemma groupBy_outcome (arr : list Obj) :
  match groupBy key_of inherited arr with
  | Normal groups =>
      Forall (fun obj => inherited (key_of obj) = false) arr /\
      forall key, groups !! key = group_of key_of arr key
  | Throw e =>
      e = TypeError /\
      Exists (fun obj => inherited (key_of obj) = true) arr
  end.
Proof.
  apply (reduce_groups_spec arr [] ∅); [constructor|].
  intros key. rewrite lookup_empty. reflexivity.
Qed.

(** X24.  When no element has a key that names an inherited member,
    [groupBy] returns the groups: under each key the elements with that key,
    all of them and in the order of the array, and no key without an
    element. *)
Theorem groupBy_groups (arr : list Obj) :
  Forall (fun obj => inherited (key_of obj) = false) arr ->
  exists groups,
    groupBy key_of inherited arr = Normal groups /\
    forall key, groups !! key = group_of key_of arr key.
Proof.
  intros Hkeys. pose proof (groupBy_outcome arr) as Hout.
  destruct (groupBy key_of inherited arr) as [groups|e].
  - exists groups. split; [reflexivity|]. apply Hout.
  - destruct Hout as [_ Hex]. apply Exists_exists in Hex as (obj & Hin & Hinh).
    rewrite Forall_forall in Hkeys. rewrite (Hkeys obj Hin) in Hinh. discriminate.
Qed.

(** X25.  [groupBy] throws a [TypeError] exactly when some element has a
    key that names an inherited member of the accumulator, such as
    [constructor] or [toString]: the test [!acc[key]] finds that member, no
    array is made, and [push] is missing. *)
Theorem groupBy_inherited_key (arr : list Obj) :
  Exists (fun obj => inherited (key_of obj) = true) arr <->
  groupBy key_of inherited arr = Throw TypeError.
Proof.
  pose proof (groupBy_outcome arr) as Hout. split.
  - intros Hex. destruct (groupBy key_of inherited arr) as [groups|e].
    + destruct Hout as [Hkeys _].
      apply Exists_exists in Hex as (obj & Hin & Hinh).
      rewrite Forall_forall in Hkeys. rewrite (Hkeys obj Hin) in Hinh.
      discriminate.
    + destruct Hout as [-> _]. reflexivity.
  - intros Hthrow. rewrite Hthrow in Hout. apply Hout.
Qed.

End GroupByFacts.

Section IsEmptyFacts.

(** X26.  [isEmpty] never throws, and it is true exactly for [null],
    [undefined], the empty string, the empty array and the object without
    properties; so [0] and [false] are not empty. *)
Theorem isEmpty_spec (value : JSValue) :
  exists b,
    isEmpty value = Normal b /\
    (b = true <->
     value = JSNull \/ value = JSUndefined \/ value = JSString EmptyString \/
     value = JSArray [] \/ value = JSObject []).
Proof.
  destruct value as [| |b|n|s|items|fields]; simpl.
  - exists true. split; [reflexivity|]. tauto.
  - exists true. split; [reflexivity|]. tauto.
  - exists false. split; [reflexivity|].
    split; [discriminate|]. intros [H|[H|[H|[H|H]]]]; discriminate.
  - exists false. split; [reflexivity|].
    split; [discriminate|]. intros [H|[H|[H|[H|H]]]]; discriminate.
  - destruct s as [|c s]; simpl.
    + exists true. split; [reflexivity|]. tauto.
    + exists false. split; [reflexivity|].
      split; [discriminate|]. intros [H|[H|[H|[H|H]]]]; discriminate.
  - destruct items as [|x items]; simpl.
    + exists true. split; [reflexivity|]. tauto.
    + exists false. split; [reflexivity|].
      split; [discriminate|]. intros [H|[H|[H|[H|H]]]]; discriminate.
  - destruct fields as [|f fields]; simpl.
    + exists true. split; [reflexivity|]. tauto.
    + exists false. split; [reflexivity|].
      split; [discriminate|]. intros [H|[H|[H|[H|H]]]]; discriminate.
Qed.

End IsEmptyFacts.

(** * Properties of [formatNumber] *)

Section FormatNumberFacts.
Local Open Scope string_scope.



Lemma pretty_N_char_digit x : is_digit (pretty_N_char x) = true.
Proof. unfold pretty_N_char. repeat case_match; reflexivity. Qed.

Lemma pretty_N_go_digits x : forall s,
  every is_digit s = true ->
  every is_digit (pretty_N_go x s) = true /\
  (s <> EmptyString \/ (0 < x)%N -> pretty_N_go x s <> EmptyString).
Proof.
  induction (N.lt_wf_0 x) as [x _ IH]; intros s Hs.
  assert (x = 0 \/ 0 < x)%N as [-> | Hpos] by lia.
  - rewrite pretty_N_go_0. split; [exact Hs|]. intros [Hne | Hlt]; [exact Hne|lia].
  - rewrite pretty_N_go_step by exact Hpos.
    destruct (IH (x `div` 10)%N) with
      (s := String (pretty_N_char (x `mod` 10)) s) as [Hd Hne].
    { apply N.div_lt; lia. }
    { simpl. rewrite pretty_N_char_digit. exact Hs. }
    split; [exact Hd|]. intros _. apply Hne. left. discriminate.
Qed.

Lemma pretty_positive_digits (p : positive) :
  every is_digit (pretty p) = true /\ pretty p <> EmptyString.
Proof.
  unfold pretty, pretty_positive, pretty, pretty_N.
  destruct (decide (N.pos p = 0%N)) as [Hz | _]; [discriminate|].
  destruct (pretty_N_go_digits (N.pos p) EmptyString eq_refl) as [Hd Hne].
  split; [exact Hd|]. apply Hne. right. lia.
Qed.


Lemma digit_is_word c : is_digit c = true -> is_word c = true.
Proof. unfold is_word. intros ->. reflexivity. Qed.

(** With digits alone, groups of three reach the end exactly when the
    number of digits is a positive multiple of three. *)
Lemma three_digit_groups_length k : forall s,
  every is_digit s = true ->
  (String.length s = (3 * S k)%nat -> three_digit_groups s = true) /\
  (String.length s = (3 * k + 1)%nat -> three_digit_groups s = false) /\
  (String.length s = (3 * k + 2)%nat -> three_digit_groups s = false).
Proof.
  induction k as [|k IH]; intros s Hd.
  - destruct s as [|a [|b [|c [|d rest]]]]; simpl in *;
      repeat split; intros Hlen; try discriminate; try reflexivity; try lia.
    destruct (is_digit a), (is_digit b), (is_digit c); auto.
  - destruct s as [|a [|b [|c rest]]];
      try (simpl; repeat split; intros Hlen; simpl in Hlen; lia).
    cbn [every] in Hd.
    apply andb_true_iff in Hd as [Ha Hd].
    apply andb_true_iff in Hd as [Hb Hd].
    apply andb_true_iff in Hd as [Hc Hd].
    destruct (IH rest Hd) as (H0 & H1 & H2).
    cbn [three_digit_groups String.length]. rewrite Ha, Hb, Hc. simpl andb.
    assert (forall n, String.length rest = S n ->
            starts_with is_digit rest = true) as Hhead.
    { intros n Hn. destruct rest as [|d rest']; [discriminate|].
      simpl in *. apply andb_true_iff in Hd as [-> _]. reflexivity. }
    repeat split; intros Hlen.
    + rewrite H0 by lia. apply orb_true_r.
    + rewrite (Hhead (3 * k)%nat) by lia. rewrite H1 by lia. reflexivity.
    + rewrite (Hhead (3 * k + 1)%nat) by lia. rewrite H2 by lia. reflexivity.
Qed.

Lemma three_digit_groups_short s :
  (String.length s < 3)%nat -> three_digit_groups s = false.
Proof. destruct s as [|a [|b [|c rest]]]; simpl; intros; try reflexivity; lia. Qed.

Lemma mod_three n :
  exists k, n = (3 * k)%nat \/ n = (3 * k + 1)%nat \/ n = (3 * k + 2)%nat.
Proof.
  induction n as [|n [k [-> | [-> | ->]]]].
  - exists 0%nat. auto.
  - exists k. right. left. lia.
  - exists k. right. right. lia.
  - exists (S k). left. lia.
Qed.

(** After a digit, a run of digits whose number is not a multiple of three
    gets no comma in front. *)
Lemma insert_commas_no_comma d c rest k :
  every is_digit (String c rest) = true ->
  (String.length (String c rest) = (3 * k + 1)%nat \/
   String.length (String c rest) = (3 * k + 2)%nat) ->
  insert_commas (Some d) (String c rest)
  = String c (insert_commas (Some c) rest).
Proof.
  intros Hd Hlen. cbn [insert_commas].
  destruct (three_digit_groups_length k _ Hd) as (_ & H1 & H2).
  assert (three_digit_groups (String c rest) = false) as ->
    by (destruct Hlen; auto).
  rewrite andb_false_r. reflexivity.
Qed.

Lemma insert_commas_groups k : forall d s,
  is_digit d = true ->
  every is_digit s = true ->
  String.length s = (3 * k)%nat ->
  comma_groups (insert_commas (Some d) s) = true.
Proof.
  induction k as [|k IH]; intros d s Hdig Hs Hlen.
  - destruct s; [|discriminate]. simpl.
    destruct (not_word_boundary _ _); reflexivity.
  - destruct s as [|a [|b [|c rest]]]; try (simpl in Hlen; lia).
    pose proof Hs as Hs'. cbn [every] in Hs'.
    apply andb_true_iff in Hs' as [Ha Hs1].
    pose proof Hs1 as Hs1'. apply andb_true_iff in Hs1' as [Hb Hs2].
    pose proof Hs2 as Hs2'. apply andb_true_iff in Hs2' as [Hc Hs3].
    assert (insert_commas (Some d) (String a (String b (String c rest)))
            = String "," (String a (insert_commas (Some a)
                                      (String b (String c rest))))) as ->.
    { cbn [insert_commas].
      destruct (three_digit_groups_length k _ Hs) as (H0 & _).
      rewrite H0 by exact Hlen.
      unfold not_word_boundary. simpl starts_with.
      rewrite (digit_is_word _ Hdig), (digit_is_word _ Ha). reflexivity. }
    rewrite (insert_commas_no_comma a b _ k) by
      (first [exact Hs1 | right; simpl in *; lia]).
    rewrite (insert_commas_no_comma b c _ k) by
      (first [exact Hs2 | left; simpl in *; lia]).
    cbn [comma_groups]. rewrite Ha, Hb, Hc. simpl.
    apply IH; [exact Hc|exact Hs3|simpl in Hlen; lia].
Qed.

(** A text of digits comes out grouped in threes from the right. *)
Lemma insert_commas_grouped (digits : string) :
  digits <> EmptyString ->
  every is_digit digits = true ->
  well_grouped (insert_commas None digits) = true.
Proof.
  intros Hne Hd. destruct digits as [|a s1]; [congruence|].
  pose proof Hd as Hd'. cbn [every] in Hd'.
  apply andb_true_iff in Hd' as [Ha Hs1].
  assert (insert_commas None (String a s1)
          = String a (insert_commas (Some a) s1)) as ->.
  { cbn [insert_commas]. unfold not_word_boundary. simpl starts_with.
    rewrite (digit_is_word _ Ha). reflexivity. }
  cbn [well_grouped]. rewrite Ha. simpl andb.
  destruct (mod_three (String.length s1)) as [k [Hlen | [Hlen | Hlen]]].
  - rewrite (insert_commas_groups k a s1 Ha Hs1 Hlen). reflexivity.
  - destruct s1 as [|b s2]; [simpl in Hlen; lia|].
    pose proof Hs1 as Hs1'. cbn [every] in Hs1'.
    apply andb_true_iff in Hs1' as [Hb Hs2].
    rewrite (insert_commas_no_comma a b s2 k Hs1 (or_introl Hlen)).
    rewrite Hb. simpl andb.
    rewrite (insert_commas_groups k b s2 Hb Hs2) by (simpl in Hlen; lia).
    apply orb_true_r.
  - destruct s1 as [|b [|c s3]]; try (simpl in Hlen; lia).
    pose proof Hs1 as Hs1'. cbn [every] in Hs1'.
    apply andb_true_iff in Hs1' as [Hb Hs2].
    pose proof Hs2 as Hs2'. cbn [every] in Hs2'.
    apply andb_true_iff in Hs2' as [Hc Hs3].
    rewrite (insert_commas_no_comma a b _ k Hs1 (or_intror Hlen)).
    rewrite (insert_commas_no_comma b c s3 k Hs2) by (left; simpl in *; lia).
    rewrite Hb, Hc. simpl andb.
    rewrite (insert_commas_groups k c s3 Hc Hs3) by (simpl in Hlen; lia).
    rewrite !orb_true_r. reflexivity.
Qed.

(** Only whether the character before is a word character matters. *)
Lemma insert_commas_after_sign s :
  insert_commas (Some "-"%char) s = insert_commas None s.
Proof. destruct s; reflexivity. Qed.

(** X28.  For a whole number that is not negative (and below 10^21, where
    [toString] turns to exponents), the result of [formatNumber] is grouped
    in threes from the right: one to three digits, then groups of a comma
    and three digits.  A negative number comes out as the minus sign and
    the grouped digits. *)
Theorem formatNumber_grouped (num : Z) :
  0 <= num < 10 ^ 21 ->
  well_grouped (formatNumber num) = true /\
  (0 < num -> formatNumber (- num) = "-" ++ formatNumber num).
Proof.
  intros [Hnonneg _]. unfold formatNumber. split.
  - apply insert_commas_grouped.
    + destruct num as [|p|p]; [discriminate|apply pretty_positive_digits|lia].
    + destruct num as [|p|p]; [reflexivity|apply pretty_positive_digits|lia].
  - intros Hpos. destruct num as [|p|p]; try lia.
    change (insert_commas None (String "-" (pretty p))
            = String "-" (insert_commas None (pretty p))).
    cbn [insert_commas]. rewrite insert_commas_after_sign.
    assert (three_digit_groups (String "-" (pretty p)) = false) as ->
      by (destruct (pretty p) as [|a [|b r]]; reflexivity).
    rewrite andb_false_r. reflexivity.
Qed.

End FormatNumberFacts.

(** * Properties of [formatNumber] on a text with a decimal point, and of
    [containsIgnoreCase] *)

Section TextFacts.
Local Open Scope string_scope.

Lemma append_cons_l c s t : String c s ++ t = String c (s ++ t).
Proof. reflexivity. Qed.

Lemma append_nil_l t : EmptyString ++ t = t.
Proof. reflexivity. Qed.

Lemma append_assoc_string a b c : (a ++ b) ++ c = a ++ (b ++ c).
Proof.
  induction a as [|x a IH]; [reflexivity|].
  rewrite !append_cons_l, IH. reflexivity.
Qed.

Lemma three_digit_groups_nondigit t :
  starts_with is_digit t = false -> three_digit_groups t = false.
Proof.
  destruct t as [|a [|b [|c r]]]; simpl; try reflexivity. intros ->. reflexivity.
Qed.

(** What follows a run of digits, if it is no digit, does not change
    whether the run is made of groups of three. *)
Lemma three_digit_groups_append n : forall s t,
  (String.length s <= n)%nat ->
  every is_digit s = true ->
  starts_with is_digit t = false ->
  three_digit_groups (s ++ t) = three_digit_groups s.
Proof.
  induction n as [|n IH]; intros s t Hlen Hs Ht.
  - destruct s; [|simpl in Hlen; lia].
    rewrite append_nil_l. apply three_digit_groups_nondigit, Ht.
  - destruct s as [|a [|b [|c rest]]]; rewrite ?append_cons_l, ?append_nil_l.
    + apply three_digit_groups_nondigit, Ht.
    + destruct t as [|x [|y r]]; simpl in *; try reflexivity.
      rewrite Ht, !andb_false_r. reflexivity.
    + destruct t as [|x r]; simpl in *; try reflexivity.
      rewrite Ht, !andb_false_r. reflexivity.
    + cbn [three_digit_groups]. f_equal.
      cbn [every] in Hs.
      apply andb_true_iff in Hs as [_ Hs].
      apply andb_true_iff in Hs as [_ Hs].
      apply andb_true_iff in Hs as [_ Hs].
      destruct rest as [|d r].
      * rewrite append_nil_l, Ht, (three_digit_groups_nondigit _ Ht).
        reflexivity.
      * rewrite IH; [reflexivity| |exact Hs|exact Ht].
        simpl in Hlen |- *. lia.
Qed.

Lemma insert_commas_nil prev : insert_commas prev EmptyString = EmptyString.
Proof. simpl. rewrite andb_false_r. reflexivity. Qed.

Lemma insert_commas_point (whole rest : string) : forall prev,
  whole <> EmptyString ->
  every is_digit whole = true ->
  insert_commas prev (whole ++ "." ++ rest)
  = insert_commas prev whole ++ "." ++ insert_commas None rest.
Proof.
  induction whole as [|c whole IH]; intros prev Hne Hd; [congruence|].
  pose proof Hd as Hd'. cbn [every] in Hd'.
  apply andb_true_iff in Hd' as [Hc Hw].
  rewrite append_cons_l. cbn [insert_commas].
  rewrite <- (append_cons_l c whole).
  rewrite (three_digit_groups_append _ (String c whole) ("." ++ rest)
             (Nat.le_refl _) Hd eq_refl).
  assert (not_word_boundary prev (String c whole ++ "." ++ rest)
          = not_word_boundary prev (String c whole)) as -> by reflexivity.
  rewrite append_cons_l, append_assoc_string, append_cons_l. f_equal. f_equal.
  destruct whole as [|d whole'].
  - rewrite append_nil_l, insert_commas_nil, append_nil_l.
    change ("." ++ rest) with (String "." rest). cbn [insert_commas].
    assert (three_digit_groups (String "." rest) = false) as ->
      by (destruct rest as [|x [|y r]]; reflexivity).
    rewrite andb_false_r, append_nil_l. f_equal.
    destruct rest; reflexivity.
  - apply IH; [discriminate|exact Hw].
Qed.

(** X29.  In a text with a decimal point, as a number that is not whole
    prints, the replacement of [formatNumber] treats the digits after the
    point like those before it: it groups them in threes from their right
    end too. *)
Theorem insert_commas_decimal_point (whole fraction : string) :
  whole <> EmptyString ->
  every is_digit whole = true ->
  fraction <> EmptyString ->
  every is_digit fraction = true ->
  insert_commas None (whole ++ "." ++ fraction)
  = insert_commas None whole ++ "." ++ insert_commas None fraction /\
  well_grouped (insert_commas None whole) = true /\
  well_grouped (insert_commas None fraction) = true.
Proof.
  intros Hw1 Hw2 Hf1 Hf2. split; [apply insert_commas_point; assumption|].
  split; apply insert_commas_grouped; assumption.
Qed.

Lemma startsWith_prefix v : forall s,
  startsWith s v = true <-> exists after, s = v ++ after.
Proof.
  induction v as [|a v IH]; intros s; simpl.
  - split; [eauto|reflexivity].
  - destruct s as [|b s].
    + split; [discriminate|]. intros [after Heq]. discriminate.
    + rewrite andb_true_iff, Ascii.eqb_eq, IH. split.
      * intros [-> [after ->]]. exists after. reflexivity.
      * intros [after Heq]. rewrite append_cons_l in Heq.
        injection Heq as -> ->. eauto.
Qed.

Lemma includes_infix v s :
  includes s v = true <-> exists before after, s = before ++ v ++ after.
Proof.
  induction s as [|c s IH]; cbn [includes]; rewrite orb_true_iff, startsWith_prefix.
  - split.
    + intros [[after Heq] | Hf]; [|discriminate]. exists EmptyString, after. exact Heq.
    + intros (before & after & Heq). left.
      destruct before; [eauto|discriminate].
  - rewrite IH. split.
    + intros [[after Heq] | (before & after & ->)].
      * exists EmptyString, after. exact Heq.
      * exists (String c before), after. reflexivity.
    + intros (before & after & Heq). destruct before as [|x before].
      * left. eauto.
      * right. rewrite append_cons_l in Heq. injection Heq as -> ->. eauto.
Qed.

Lemma toLowerCase_append a b :
  toLowerCase (a ++ b) = toLowerCase a ++ toLowerCase b.
Proof.
  induction a as [|c a IH]; [reflexivity|].
  rewrite append_cons_l. simpl. rewrite IH. reflexivity.
Qed.

Lemma toLowerCase_split x : forall s y,
  toLowerCase s = x ++ y ->
  exists s1 s2, s = s1 ++ s2 /\ toLowerCase s1 = x /\ toLowerCase s2 = y.
Proof.
  induction x as [|c x IH]; intros s y Heq.
  - exists EmptyString, s. auto.
  - destruct s as [|d s]; [discriminate|].
    rewrite append_cons_l in Heq. simpl in Heq. injection Heq as Hc Hrest.
    destruct (IH s y Hrest) as (s1 & s2 & -> & <- & <-).
    exists (String d s1), s2. simpl. rewrite Hc. auto.
Qed.

(** X30.  [containsIgnoreCase] is true exactly when some stretch of the
    string equals the value once both are put in lower case.  In particular
    it is true for the empty value. *)
Theorem containsIgnoreCase_spec (str value : string) :
  containsIgnoreCase str value = true <->
  exists before found after,
    str = before ++ found ++ after /\
    toLowerCase found = toLowerCase value.
Proof.
  unfold containsIgnoreCase. rewrite includes_infix. split.
  - intros (x & y & Heq).
    destruct (toLowerCase_split _ _ _ Heq) as (before & tail & -> & _ & Htail).
    destruct (toLowerCase_split _ _ _ Htail) as (found & after & -> & Hfound & _).
    exists before, found, after. auto.
  - intros (before & found & after & -> & Hfound).
    exists (toLowerCase before), (toLowerCase after).
    rewrite !toLowerCase_append, Hfound. reflexivity.
Qed.

End TextFacts.

(** * The other helpers at work *)

Module MoreInstances.
Import RefHost.
Local Open Scope string_scope.

Definition people : list (string * string) :=
  [("ann", "oslo"); ("bob", "rome"); ("cy", "oslo")].

Example truncateString_examples :
  truncateString "Hello, world" 8 = "Hello..." /\
  truncateString "Hello" 8 = "Hello" /\
  truncateString "abcdef" 2 = "...".
Proof. repeat split. Qed.

Example normalizeString_example :
  normalizeString "  hello    big   world " = "hello big world".
Proof. reflexivity. Qed.

Example formatNumber_examples :
  formatNumber 1234567 = "1,234,567" /\
  formatNumber 999 = "999" /\
  formatNumber 1000 = "1,000" /\
  formatNumber (-1234) = "-1,234" /\
  insert_commas None "1234.5678" = "1,234.5,678".
Proof. vm_compute. repeat split. Qed.

Example isValidEmail_examples :
  isValidEmail "ann@example.org" = true /\
  isValidEmail "ann@example" = false /\
  isValidEmail "ann smith@example.org" = false /\
  isValidEmail "ann@@example.org" = false /\
  isValidEmail "@example.org" = false.
Proof. vm_compute. repeat split. Qed.

Example isValidPhone_examples :
  isValidPhone "+1 (555) 123-4567" = true /\
  isValidPhone "12345" = false /\
  isValidPhone "555-CALL-1234567" = false.
Proof. vm_compute. repeat split. Qed.

Example getUnique_example : getUnique [1; 2; 1; 3; 2] = [1; 2; 3].
Proof. reflexivity. Qed.

Example flattenArray_example :
  flattenArray
    [JSNumber 1; JSArray [JSNumber 2; JSArray [JSNumber 3; JSArray []]];
     JSNumber 4]
  = [JSNumber 1; JSNumber 2; JSNumber 3; JSNumber 4].
Proof. reflexivity. Qed.

Example groupBy_constructor_throws :
  groupBy snd is_inherited (people ++ [("dee", "constructor")])
  = Throw TypeError.
Proof. vm_compute. reflexivity. Qed.

Example isEmpty_examples :
  isEmpty (JSNumber 0) = Normal false /\
  isEmpty (JSBool false) = Normal false /\
  isEmpty (JSArray []) = Normal true /\
  isEmpty (JSObject [("a", JSUndefined)]) = Normal false.
Proof. repeat split. Qed.

Example containsIgnoreCase_examples :
  containsIgnoreCase "Hello World" "WORLD" = true /\
  containsIgnoreCase "Hello World" "" = true /\
  containsIgnoreCase "Hello" "Hello World" = false.
Proof. vm_compute. repeat split. Qed.

Lemma storage_frame_witness :
  localStorage (snd (@setStorage roomy "k" a1 (browser_with [("j", "2")])))
    !! "j" = localStorage (browser_with [("j", "2")]) !! "j" /\
  localStorage (snd (@removeStorage roomy "k" (browser_with [("j", "2")])))
    !! "j" = localStorage (browser_with [("j", "2")]) !! "j".
Proof.
  apply (@storage_frame roomy "k" "j" a1 (browser_with [("j", "2")])).
  discriminate.
Defined.

Lemma remove_then_get_witness :
  let w' := snd (@removeStorage roomy "k" (browser_with [("k", "1")])) in
  localStorage w' = delete "k" (localStorage (browser_with [("k", "1")])) /\
  console w' = console (browser_with [("k", "1")]) /\
  fst (@getStorage roomy "k" w') = Normal JSNull.
Proof.
  apply (@remove_then_get roomy "k" (browser_with [("k", "1")])).
  reflexivity.
Defined.

Lemma set_without_json_text_witness :
  let w1 := snd (@setStorage roomy "k" JSUndefined (browser_with [("k", "1")])) in
  localStorage w1 = <["k" := "undefined"]> (localStorage (browser_with [("k", "1")])) /\
  console w1 = console (browser_with [("k", "1")]) /\
  @getStorage roomy "k" w1 =
    (Normal JSNull,
     {| localStorage := localStorage w1;
        console := console (browser_with [("k", "1")])
                   ++ [{| log_message := @getStorage_message "k";
                          log_error := SyntaxError |}] |}).
Proof.
  apply (@set_without_json_text roomy "k" JSUndefined
           (browser_with [("k", "1")]) SyntaxError);
    vm_compute; reflexivity.
Defined.

Lemma empty_text_reads_null_witness :
  @getStorage roomy "k" (browser_with [("k", EmptyString)])
  = (Normal JSNull, browser_with [("k", EmptyString)]).
Proof.
  apply (@empty_text_reads_null roomy "k" (browser_with [("k", EmptyString)]));
    vm_compute; reflexivity.
Defined.



Lemma throttle_gate_and_timer_witness :
  let l := Throttle.run 100 [(0, a); (10, b)]%Z 50 (Throttle.throttle 0) in
  (pending l = [] /\ Throttle.gate_open l = true) \/
  (exists tm, pending l = [tm] /\ Throttle.gate_open l = false /\
              (timer_due tm <= clock l + Z.max 0 100)%Z).
Proof.
  apply (throttle_gate_and_timer 100 0 [(0, a); (10, b)]%Z 50).
  simpl. lia.
Defined.

Lemma truncateString_fits_witness :
  js_length (truncateString "Hello, world" 8) = Z.min (js_length "Hello, world") 8 /\
  ((js_length "Hello, world" <= 8)%Z -> truncateString "Hello, world" 8 = "Hello, world") /\
  ((8 < js_length "Hello, world")%Z ->
   exists kept dropped,
     "Hello, world" = kept ++ dropped /\
     js_length kept = (8 - 3)%Z /\
     truncateString "Hello, world" 8 = kept ++ "...").
Proof. apply (truncateString_fits "Hello, world" 8). lia. Defined.

Lemma truncateString_small_limit_witness :
  truncateString "abcdef" 2 = "..." /\
  (2 < js_length (truncateString "abcdef" 2))%Z.
Proof.
  apply (truncateString_small_limit "abcdef" 2); [lia|].
  unfold js_length. simpl. lia.
Defined.

Lemma isValidEmail_one_at_witness :
  occurrences "@" "ann@example.org" = 1%nat /\
  every (fun ch => negb (is_whitespace ch)) "ann@example.org" = true /\
  (5 <= js_length "ann@example.org")%Z.
Proof. apply (isValidEmail_one_at "ann@example.org"). vm_compute. reflexivity. Defined.

Lemma isValidPhone_no_upper_limit_witness :
  isValidPhone ("+1 (555) 123-4567" ++ " 000 000 000") = true.
Proof.
  apply (isValidPhone_no_upper_limit "+1 (555) 123-4567" " 000 000 000");
    vm_compute; reflexivity.
Defined.

Lemma groupBy_groups_witness :
  exists groups,
    groupBy snd is_inherited people = Normal groups /\
    forall key, groups !! key = group_of snd people key.
Proof.
  apply (groupBy_groups snd is_inherited people).
  repeat constructor.
Defined.

Lemma formatNumber_grouped_witness :
  well_grouped (formatNumber 1234567) = true /\
  ((0 < 1234567)%Z -> formatNumber (- 1234567) = "-" ++ formatNumber 1234567).
Proof. apply (formatNumber_grouped 1234567). lia. Defined.

Lemma insert_commas_decimal_point_witness :
  insert_commas None ("1234" ++ "." ++ "5678")
  = insert_commas None "1234" ++ "." ++ insert_commas None "5678" /\
  well_grouped (insert_commas None "1234") = true /\
  well_grouped (insert_commas None "5678") = true.
Proof.
  apply (insert_commas_decimal_point "1234" "5678");
    first [discriminate | reflexivity].
Defined.

End MoreInstances.
